(** * Safety rules serializer of the dijets consensus core

    A shallow embedding of [consensus/safety-rules/src/serializer.rs]:
    the wire enum [SafetyRulesInput], [SerializerService::handle_message],
    the [SerializerClient] proxy and the in-process [LocalService]
    transport, together with the BCS wire encoding they use
    ([bcs::to_bytes] / [bcs::from_bytes]) and a model of the
    [SafetyRules] engine they wrap. *)

From Stdlib Require Import NArith PeanoNat List Lia Bool.
From Stdlib Require Import Strings.Byte.
Import ListNotations.

Open Scope N_scope.

(** ** BCS byte codec *)

Module Bcs.

(** A decoder reads a prefix of the byte string and returns the rest. *)
Definition Dec (A : Type) := list byte -> option (A * list byte).

Definition ret {A} (a : A) : Dec A := fun bs => Some (a, bs).

Definition bind {A B} (d : Dec A) (k : A -> Dec B) : Dec B :=
  fun bs => match d bs with
            | Some (a, rest) => k a rest
            | None => None
            end.

Definition fail {A} : Dec A := fun _ => None.

Notation "'let*' x ':=' d 'in' k" := (bind d (fun x => k))
  (at level 200, x name, d at level 100, k at level 200).

Definition read_byte : Dec byte :=
  fun bs => match bs with
            | b :: rest => Some (b, rest)
            | [] => None
            end.

(** The byte holding [n mod 256]. *)
Definition byte_of_N (n : N) : byte :=
  match Byte.of_N (n mod 256) with
  | Some b => b
  | None => x00
  end.

(** Little-endian unsigned integer of [k] bytes (a [u64] is [k = 8]). *)
Fixpoint enc_uint (k : nat) (n : N) : list byte :=
  match k with
  | O => []
  | S k' => byte_of_N n :: enc_uint k' (n / 256)
  end.

Fixpoint dec_uint (k : nat) : Dec N :=
  match k with
  | O => ret 0
  | S k' =>
      let* b := read_byte in
      let* hi := dec_uint k' in
      ret (Byte.to_N b + 256 * hi)
  end.

Definition u64_max : N := 2 ^ 64.
Definition u64_ok (n : N) : bool := n <? u64_max.

Definition enc_u64 : N -> list byte := enc_uint 8.
Definition dec_u64 : Dec N := dec_uint 8.

(** [bool] is one byte, 0 or 1; any other byte is rejected. *)
Definition enc_bool (b : bool) : list byte := [if b then x01 else x00].

Definition dec_bool : Dec bool :=
  let* b := read_byte in
  match b with
  | x00 => ret false
  | x01 => ret true
  | _ => fail
  end.

(** [Option<T>] is a 0/1 tag followed by the payload when present. *)
Definition enc_option {A} (enc : A -> list byte) (o : option A) : list byte :=
  match o with
  | None => [x00]
  | Some a => x01 :: enc a
  end.

Definition dec_option {A} (dec : Dec A) : Dec (option A) :=
  let* b := read_byte in
  match b with
  | x00 => ret None
  | x01 => let* a := dec in ret (Some a)
  | _ => fail
  end.

(** Enum variant indices are ULEB128.  Every enum of this file has fewer
    than 128 variants, so a valid index is a single byte below the variant
    count; any other first byte is either an out-of-range index or (for
    bytes >= 128) a multi-byte ULEB128 that is out of range or
    non-canonical, which BCS rejects as well. *)
Definition enc_tag (i : nat) : list byte := [byte_of_N (N.of_nat i)].

Definition dec_tag (count : nat) : Dec nat :=
  let* b := read_byte in
  if Byte.to_N b <? N.of_nat count then ret (N.to_nat (Byte.to_N b)) else fail.

End Bcs.

(** ** Data model

    The argument and result types of the engine live in the
    [consensus_types] and [dijets_types] crates.  Modelled from the spec:
    these types are not part of the translated sources; each is reduced to
    the round, epoch and identity fields that Sections 3 and 4.1 of the
    spec say the engine checks.  Rounds, epochs, versions and ids are
    [u64] values, kept as [N] below [2^64]. *)

Module Types.

(** [Ed25519Signature]: a signature by [sig_signer] over the artifact of
    kind [sig_domain] (0 proposal, 1 vote, 2 timeout, 3 commit vote). *)
Record Signature := mkSignature {
  sig_signer : N; sig_domain : N; sig_epoch : N; sig_round : N; sig_id : N }.

Record Vote := mkVote {
  vote_epoch : N; vote_round : N; vote_block_id : N; vote_author : N;
  vote_signature : Signature }.

(** A block together with the round of the QC that justifies it. *)
Record VoteProposal := mkVoteProposal {
  vp_epoch : N; vp_round : N; vp_block_id : N; vp_qc_round : N }.

Record MaybeSignedVoteProposal := mkMaybeSignedVoteProposal {
  msvp_vote_proposal : VoteProposal; msvp_signature : option Signature }.

Record BlockData := mkBlockData {
  bd_epoch : N; bd_round : N; bd_author : N; bd_id : N }.

Record Timeout := mkTimeout { to_epoch : N; to_round : N }.

Record TwoChainTimeout := mkTwoChainTimeout {
  tct_epoch : N; tct_round : N; tct_hqc_round : N }.

Record TwoChainTimeoutCertificate := mkTwoChainTimeoutCertificate {
  tc_epoch : N; tc_round : N }.

Record LedgerInfo := mkLedgerInfo {
  li_epoch : N; li_round : N; li_version : N; li_id : N }.

(** [liws_quorum]: the signatures meet quorum for the epoch's validators. *)
Record LedgerInfoWithSignatures := mkLedgerInfoWithSignatures {
  liws_ledger_info : LedgerInfo; liws_quorum : bool }.

(** The target epoch of the proof, whether its chain verifies, and whether
    this validator belongs to the new validator set. *)
Record EpochChangeProof := mkEpochChangeProof {
  ecp_epoch : N; ecp_verified : bool; ecp_member : bool }.

Record ConsensusState := mkConsensusState {
  cs_epoch : N; cs_last_voted_round : N; cs_preferred_round : N;
  cs_in_validator_set : bool }.

(** The error kinds of Section 7 of the spec. *)
Inductive Error :=
| NotInitialized
| InvalidEpochChangeProof
| IncorrectEpoch (expected provided : N)
| SafetyViolation
| InvalidCertificate
| SerializationError
| SecureStorageError
| InternalError.

(** Rust's [Result<T, E>]. *)
Inductive Result (T E : Type) := Ok (t : T) | Err (e : E).
Arguments Ok {T E} t.
Arguments Err {T E} e.

End Types.
Import Types.

(** ** The safety rules engine

    Modelled from the spec: [SafetyRules] (safety_rules.rs) is not among
    the translated sources; the operations below follow Section 4.1 of the
    spec, with the checks in the order: initialized, epoch, certificate
    consistency, rounds.  Each returns its typed result and the new engine
    state; a failed check returns the state unchanged. *)

Record SafetyData := mkSafetyData {
  epoch : N; last_voted_round : N; preferred_round : N;
  last_vote : option Vote }.

Record SafetyRules := mkSafetyRules {
  sr_initialized : bool; sr_author : N; sr_in_validator_set : bool;
  sr_safety_data : SafetyData }.

Definition with_safety_data (s : SafetyRules) (sd : SafetyData) : SafetyRules :=
  mkSafetyRules (sr_initialized s) (sr_author s) (sr_in_validator_set s) sd.

Definition sign (s : SafetyRules) (domain ep round id : N) : Signature :=
  mkSignature (sr_author s) domain ep round id.

Definition consensus_state (s : SafetyRules) : Result ConsensusState Error * SafetyRules :=
  if negb (sr_initialized s) then (Err NotInitialized, s) else
  let sd := sr_safety_data s in
  (Ok (mkConsensusState (epoch sd) (last_voted_round sd) (preferred_round sd)
         (sr_in_validator_set s)), s).

(** Succeeds only for a verified proof that strictly advances the epoch;
    resets the round-tracking fields to the new epoch's start. *)
Definition initialize (s : SafetyRules) (proof : EpochChangeProof)
  : Result unit Error * SafetyRules :=
  if ecp_verified proof && (epoch (sr_safety_data s) <? ecp_epoch proof) then
    (Ok tt, mkSafetyRules true (sr_author s) (ecp_member proof)
              (mkSafetyData (ecp_epoch proof) 0 0 None))
  else (Err InvalidEpochChangeProof, s).

Definition sign_proposal (s : SafetyRules) (bd : BlockData)
  : Result Signature Error * SafetyRules :=
  let sd := sr_safety_data s in
  if negb (sr_initialized s) then (Err NotInitialized, s)
  else if negb (bd_epoch bd =? epoch sd) then (Err (IncorrectEpoch (epoch sd) (bd_epoch bd)), s)
  else if negb (bd_author bd =? sr_author s) then (Err SafetyViolation, s)
  else (Ok (sign s 0 (bd_epoch bd) (bd_round bd) (bd_id bd)), s).

(** Signing a timeout raises [last_voted_round] to at least its round. *)
Definition timeout_update (s : SafetyRules) (round : N) : SafetyRules :=
  let sd := sr_safety_data s in
  with_safety_data s (mkSafetyData (epoch sd) (N.max (last_voted_round sd) round)
                        (preferred_round sd) (last_vote sd)).

Definition sign_timeout (s : SafetyRules) (t : Timeout)
  : Result Signature Error * SafetyRules :=
  let sd := sr_safety_data s in
  if negb (sr_initialized s) then (Err NotInitialized, s)
  else if negb (to_epoch t =? epoch sd) then (Err (IncorrectEpoch (epoch sd) (to_epoch t)), s)
  else if to_round t <? last_voted_round sd then (Err SafetyViolation, s)
  else (Ok (sign s 2 (to_epoch t) (to_round t) 0), timeout_update s (to_round t)).

(** A timeout certificate is consistent with an artifact of round [r] when
    it is of the current epoch and certifies an earlier round. *)
Definition tc_consistent (ep r : N) (maybe_tc : option TwoChainTimeoutCertificate) : bool :=
  match maybe_tc with
  | None => true
  | Some tc => (tc_epoch tc =? ep) && (tc_round tc <? r)
  end.

Definition sign_timeout_with_qc (s : SafetyRules) (t : TwoChainTimeout)
  (maybe_tc : option TwoChainTimeoutCertificate) : Result Signature Error * SafetyRules :=
  let sd := sr_safety_data s in
  if negb (sr_initialized s) then (Err NotInitialized, s)
  else if negb (tct_epoch t =? epoch sd) then (Err (IncorrectEpoch (epoch sd) (tct_epoch t)), s)
  else if negb ((tct_hqc_round t <? tct_round t) && tc_consistent (epoch sd) (tct_round t) maybe_tc)
  then (Err InvalidCertificate, s)
  else if tct_round t <? last_voted_round sd then (Err SafetyViolation, s)
  else (Ok (sign s 2 (tct_epoch t) (tct_round t) 0), timeout_update s (tct_round t)).

(** The voting rule shared by both voting operations: [lock_round] is the
    round that must reach [preferred_round] (the QC round, or for the
    two-chain rule the higher of the QC and TC rounds). *)
Definition vote_with_lock (s : SafetyRules) (vp : VoteProposal) (certs_ok : bool)
  (lock_round : N) : Result Vote Error * SafetyRules :=
  let sd := sr_safety_data s in
  if negb (sr_initialized s) then (Err NotInitialized, s)
  else if negb (vp_epoch vp =? epoch sd) then (Err (IncorrectEpoch (epoch sd) (vp_epoch vp)), s)
  else if negb ((vp_qc_round vp <? vp_round vp) && certs_ok) then (Err InvalidCertificate, s)
  else if negb (last_voted_round sd <? vp_round vp) then (Err SafetyViolation, s)
  else if lock_round <? preferred_round sd then (Err SafetyViolation, s)
  else
    let vote := mkVote (vp_epoch vp) (vp_round vp) (vp_block_id vp) (sr_author s)
                  (sign s 1 (vp_epoch vp) (vp_round vp) (vp_block_id vp)) in
    (Ok vote, with_safety_data s (mkSafetyData (epoch sd) (vp_round vp)
                                   (N.max (preferred_round sd) lock_round) (Some vote))).

Definition construct_and_sign_vote (s : SafetyRules) (msvp : MaybeSignedVoteProposal)
  : Result Vote Error * SafetyRules :=
  let vp := msvp_vote_proposal msvp in
  vote_with_lock s vp true (vp_qc_round vp).

Definition tc_round_or_zero (maybe_tc : option TwoChainTimeoutCertificate) : N :=
  match maybe_tc with Some tc => tc_round tc | None => 0 end.

Definition construct_and_sign_vote_two_chain (s : SafetyRules)
  (msvp : MaybeSignedVoteProposal) (maybe_tc : option TwoChainTimeoutCertificate)
  : Result Vote Error * SafetyRules :=
  let vp := msvp_vote_proposal msvp in
  vote_with_lock s vp (tc_consistent (epoch (sr_safety_data s)) (vp_round vp) maybe_tc)
    (N.max (vp_qc_round vp) (tc_round_or_zero maybe_tc)).

(** Commit votes use neither [last_voted_round] nor [preferred_round]. *)
Definition sign_commit_vote (s : SafetyRules) (ledger_info : LedgerInfoWithSignatures)
  (new_ledger_info : LedgerInfo) : Result Signature Error * SafetyRules :=
  let sd := sr_safety_data s in
  let li := liws_ledger_info ledger_info in
  if negb (sr_initialized s) then (Err NotInitialized, s)
  else if negb (li_epoch li =? epoch sd) then (Err (IncorrectEpoch (epoch sd) (li_epoch li)), s)
  else if negb (liws_quorum ledger_info && (li_epoch new_ledger_info =? li_epoch li)
                && (li_round li <=? li_round new_ledger_info)
                && (li_version li <=? li_version new_ledger_info))
  then (Err InvalidCertificate, s)
  else (Ok (sign s 3 (li_epoch new_ledger_info) (li_round new_ledger_info)
              (li_id new_ledger_info)), s).

(** ** Wire encoding of the data model

    [#[derive(Serialize, Deserialize)]] on a struct writes its fields in
    declaration order; on an enum, the variant index and then the
    variant's fields.  [Box] adds nothing to the encoding. *)

Module Wire.
Import Bcs.

Definition enc_signature (x : Signature) : list byte :=
  enc_u64 (sig_signer x) ++ enc_u64 (sig_domain x) ++ enc_u64 (sig_epoch x)
  ++ enc_u64 (sig_round x) ++ enc_u64 (sig_id x).

Definition dec_signature : Dec Signature :=
  let* a := dec_u64 in let* b := dec_u64 in let* c := dec_u64 in
  let* d := dec_u64 in let* e := dec_u64 in
  ret (mkSignature a b c d e).

Definition enc_vote (x : Vote) : list byte :=
  enc_u64 (vote_epoch x) ++ enc_u64 (vote_round x) ++ enc_u64 (vote_block_id x)
  ++ enc_u64 (vote_author x) ++ enc_signature (vote_signature x).

Definition dec_vote : Dec Vote :=
  let* a := dec_u64 in let* b := dec_u64 in let* c := dec_u64 in
  let* d := dec_u64 in let* e := dec_signature in
  ret (mkVote a b c d e).

Definition enc_vote_proposal (x : VoteProposal) : list byte :=
  enc_u64 (vp_epoch x) ++ enc_u64 (vp_round x) ++ enc_u64 (vp_block_id x)
  ++ enc_u64 (vp_qc_round x).

Definition dec_vote_proposal : Dec VoteProposal :=
  let* a := dec_u64 in let* b := dec_u64 in let* c := dec_u64 in
  let* d := dec_u64 in
  ret (mkVoteProposal a b c d).

Definition enc_maybe_signed_vote_proposal (x : MaybeSignedVoteProposal) : list byte :=
  enc_vote_proposal (msvp_vote_proposal x) ++ enc_option enc_signature (msvp_signature x).

Definition dec_maybe_signed_vote_proposal : Dec MaybeSignedVoteProposal :=
  let* a := dec_vote_proposal in let* b := dec_option dec_signature in
  ret (mkMaybeSignedVoteProposal a b).

Definition enc_block_data (x : BlockData) : list byte :=
  enc_u64 (bd_epoch x) ++ enc_u64 (bd_round x) ++ enc_u64 (bd_author x) ++ enc_u64 (bd_id x).

Definition dec_block_data : Dec BlockData :=
  let* a := dec_u64 in let* b := dec_u64 in let* c := dec_u64 in
  let* d := dec_u64 in
  ret (mkBlockData a b c d).

Definition enc_timeout (x : Timeout) : list byte :=
  enc_u64 (to_epoch x) ++ enc_u64 (to_round x).

Definition dec_timeout : Dec Timeout :=
  let* a := dec_u64 in let* b := dec_u64 in ret (mkTimeout a b).

Definition enc_two_chain_timeout (x : TwoChainTimeout) : list byte :=
  enc_u64 (tct_epoch x) ++ enc_u64 (tct_round x) ++ enc_u64 (tct_hqc_round x).

Definition dec_two_chain_timeout : Dec TwoChainTimeout :=
  let* a := dec_u64 in let* b := dec_u64 in let* c := dec_u64 in
  ret (mkTwoChainTimeout a b c).

Definition enc_tc (x : TwoChainTimeoutCertificate) : list byte :=
  enc_u64 (tc_epoch x) ++ enc_u64 (tc_round x).

Definition dec_tc : Dec TwoChainTimeoutCertificate :=
  let* a := dec_u64 in let* b := dec_u64 in ret (mkTwoChainTimeoutCertificate a b).

Definition enc_ledger_info (x : LedgerInfo) : list byte :=
  enc_u64 (li_epoch x) ++ enc_u64 (li_round x) ++ enc_u64 (li_version x) ++ enc_u64 (li_id x).

Definition dec_ledger_info : Dec LedgerInfo :=
  let* a := dec_u64 in let* b := dec_u64 in let* c := dec_u64 in
  let* d := dec_u64 in
  ret (mkLedgerInfo a b c d).

Definition enc_ledger_info_with_signatures (x : LedgerInfoWithSignatures) : list byte :=
  enc_ledger_info (liws_ledger_info x) ++ enc_bool (liws_quorum x).

Definition dec_ledger_info_with_signatures : Dec LedgerInfoWithSignatures :=
  let* a := dec_ledger_info in let* b := dec_bool in
  ret (mkLedgerInfoWithSignatures a b).

Definition enc_epoch_change_proof (x : EpochChangeProof) : list byte :=
  enc_u64 (ecp_epoch x) ++ enc_bool (ecp_verified x) ++ enc_bool (ecp_member x).

Definition dec_epoch_change_proof : Dec EpochChangeProof :=
  let* a := dec_u64 in let* b := dec_bool in let* c := dec_bool in
  ret (mkEpochChangeProof a b c).

Definition enc_consensus_state (x : ConsensusState) : list byte :=
  enc_u64 (cs_epoch x) ++ enc_u64 (cs_last_voted_round x)
  ++ enc_u64 (cs_preferred_round x) ++ enc_bool (cs_in_validator_set x).

Definition dec_consensus_state : Dec ConsensusState :=
  let* a := dec_u64 in let* b := dec_u64 in let* c := dec_u64 in
  let* d := dec_bool in
  ret (mkConsensusState a b c d).

Definition enc_unit (_ : unit) : list byte := [].

Definition dec_unit : Dec unit := ret tt.

Definition enc_error (e : Error) : list byte :=
  match e with
  | NotInitialized => enc_tag 0
  | InvalidEpochChangeProof => enc_tag 1
  | IncorrectEpoch a b => enc_tag 2 ++ enc_u64 a ++ enc_u64 b
  | SafetyViolation => enc_tag 3
  | InvalidCertificate => enc_tag 4
  | SerializationError => enc_tag 5
  | SecureStorageError => enc_tag 6
  | InternalError => enc_tag 7
  end.

Definition dec_error : Dec Error :=
  let* i := dec_tag 8 in
  match i with
  | 0 => ret NotInitialized
  | 1 => ret InvalidEpochChangeProof
  | 2 => let* a := dec_u64 in let* b := dec_u64 in ret (IncorrectEpoch a b)
  | 3 => ret SafetyViolation
  | 4 => ret InvalidCertificate
  | 5 => ret SerializationError
  | 6 => ret SecureStorageError
  | _ => ret InternalError
  end%nat.

(** [Result<T, Error>]: variant 0 is [Ok], variant 1 is [Err]. *)
Definition enc_result {T} (enc : T -> list byte) (r : Result T Error) : list byte :=
  match r with
  | Ok t => enc_tag 0 ++ enc t
  | Err e => enc_tag 1 ++ enc_error e
  end.

Definition dec_result {T} (dec : Dec T) : Dec (Result T Error) :=
  let* i := dec_tag 2 in
  match i with
  | 0 => let* t := dec in ret (Ok t)
  | _ => let* e := dec_error in ret (Err e)
  end%nat.

(** Well-formedness: every [u64] field is below [2^64]. *)
Definition signature_ok (x : Signature) : bool :=
  u64_ok (sig_signer x) && u64_ok (sig_domain x) && u64_ok (sig_epoch x)
  && u64_ok (sig_round x) && u64_ok (sig_id x).

Definition vote_ok (x : Vote) : bool :=
  u64_ok (vote_epoch x) && u64_ok (vote_round x) && u64_ok (vote_block_id x)
  && u64_ok (vote_author x) && signature_ok (vote_signature x).

Definition vote_proposal_ok (x : VoteProposal) : bool :=
  u64_ok (vp_epoch x) && u64_ok (vp_round x) && u64_ok (vp_block_id x) && u64_ok (vp_qc_round x).

Definition option_ok {A} (ok : A -> bool) (o : option A) : bool :=
  match o with Some a => ok a | None => true end.

Definition maybe_signed_vote_proposal_ok (x : MaybeSignedVoteProposal) : bool :=
  vote_proposal_ok (msvp_vote_proposal x) && option_ok signature_ok (msvp_signature x).

Definition block_data_ok (x : BlockData) : bool :=
  u64_ok (bd_epoch x) && u64_ok (bd_round x) && u64_ok (bd_author x) && u64_ok (bd_id x).

Definition timeout_ok (x : Timeout) : bool := u64_ok (to_epoch x) && u64_ok (to_round x).

Definition two_chain_timeout_ok (x : TwoChainTimeout) : bool :=
  u64_ok (tct_epoch x) && u64_ok (tct_round x) && u64_ok (tct_hqc_round x).

Definition tc_ok (x : TwoChainTimeoutCertificate) : bool :=
  u64_ok (tc_epoch x) && u64_ok (tc_round x).

Definition ledger_info_ok (x : LedgerInfo) : bool :=
  u64_ok (li_epoch x) && u64_ok (li_round x) && u64_ok (li_version x) && u64_ok (li_id x).

Definition ledger_info_with_signatures_ok (x : LedgerInfoWithSignatures) : bool :=
  ledger_info_ok (liws_ledger_info x).

Definition epoch_change_proof_ok (x : EpochChangeProof) : bool := u64_ok (ecp_epoch x).

Definition consensus_state_ok (x : ConsensusState) : bool :=
  u64_ok (cs_epoch x) && u64_ok (cs_last_voted_round x) && u64_ok (cs_preferred_round x).

Definition unit_ok (_ : unit) : bool := true.

Definition error_ok (e : Error) : bool :=
  match e with IncorrectEpoch a b => u64_ok a && u64_ok b | _ => true end.

Definition result_ok {T} (ok : T -> bool) (r : Result T Error) : bool :=
  match r with Ok t => ok t | Err e => error_ok e end.

End Wire.

(** ** serializer.rs *)

Module Serializer.
Import Bcs Wire.

(** [enum SafetyRulesInput] *)
Inductive SafetyRulesInput :=
| ConsensusState
| Initialize (proof : EpochChangeProof)
| ConstructAndSignVote (vote_proposal : MaybeSignedVoteProposal)
| SignProposal (block_data : BlockData)
| SignTimeout (timeout : Timeout)
| SignTimeoutWithQC (timeout : TwoChainTimeout)
    (maybe_tc : option TwoChainTimeoutCertificate)
| ConstructAndSignVoteTwoChain (vote_proposal : MaybeSignedVoteProposal)
    (maybe_tc : option TwoChainTimeoutCertificate)
| SignCommitVote (ledger_info : LedgerInfoWithSignatures) (new_ledger_info : LedgerInfo).

Definition enc_input (i : SafetyRulesInput) : list byte :=
  match i with
  | ConsensusState => enc_tag 0
  | Initialize p => enc_tag 1 ++ enc_epoch_change_proof p
  | ConstructAndSignVote vp => enc_tag 2 ++ enc_maybe_signed_vote_proposal vp
  | SignProposal bd => enc_tag 3 ++ enc_block_data bd
  | SignTimeout t => enc_tag 4 ++ enc_timeout t
  | SignTimeoutWithQC t tc => enc_tag 5 ++ enc_two_chain_timeout t ++ enc_option enc_tc tc
  | ConstructAndSignVoteTwoChain vp tc =>
      enc_tag 6 ++ enc_maybe_signed_vote_proposal vp ++ enc_option enc_tc tc
  | SignCommitVote li nli => enc_tag 7 ++ enc_ledger_info_with_signatures li ++ enc_ledger_info nli
  end.

Definition dec_input : Dec SafetyRulesInput :=
  let* i := dec_tag 8 in
  match i with
  | 0 => ret ConsensusState
  | 1 => let* p := dec_epoch_change_proof in ret (Initialize p)
  | 2 => let* vp := dec_maybe_signed_vote_proposal in ret (ConstructAndSignVote vp)
  | 3 => let* bd := dec_block_data in ret (SignProposal bd)
  | 4 => let* t := dec_timeout in ret (SignTimeout t)
  | 5 => let* t := dec_two_chain_timeout in let* tc := dec_option dec_tc in
         ret (SignTimeoutWithQC t tc)
  | 6 => let* vp := dec_maybe_signed_vote_proposal in let* tc := dec_option dec_tc in
         ret (ConstructAndSignVoteTwoChain vp tc)
  | _ => let* li := dec_ledger_info_with_signatures in let* nli := dec_ledger_info in
         ret (SignCommitVote li nli)
  end%nat.

Definition input_ok (i : SafetyRulesInput) : bool :=
  match i with
  | ConsensusState => true
  | Initialize p => epoch_change_proof_ok p
  | ConstructAndSignVote vp => maybe_signed_vote_proposal_ok vp
  | SignProposal bd => block_data_ok bd
  | SignTimeout t => timeout_ok t
  | SignTimeoutWithQC t tc => two_chain_timeout_ok t && option_ok tc_ok tc
  | ConstructAndSignVoteTwoChain vp tc =>
      maybe_signed_vote_proposal_ok vp && option_ok tc_ok tc
  | SignCommitVote li nli => ledger_info_with_signatures_ok li && ledger_info_ok nli
  end.

(** [bcs::Error], reduced to the two ways decoding fails. *)
Inductive BcsError := Malformed | RemainingInput.

(** [bcs::to_bytes]: none of the types above has a sequence or a nesting
    deep enough for BCS's length and depth limits, so it always succeeds. *)
Definition to_bytes {A} (enc : A -> list byte) (a : A) : Result (list byte) BcsError :=
  Ok (enc a).

(** [bcs::from_bytes]: decode, then require that the whole input was read. *)
Definition from_bytes {A} (dec : Dec A) (bs : list byte) : Result A BcsError :=
  match dec bs with
  | Some (a, []) => Ok a
  | Some (_, _ :: _) => Err RemainingInput
  | None => Err Malformed
  end.

(** Modelled from the spec: [impl From<bcs::Error> for Error] (error.rs) is
    not among the translated sources; Section 7 of the spec reports
    malformed request or response bytes as [SerializationError]. *)
Definition error_of_bcs (_ : BcsError) : Error := SerializationError.

(** [struct SerializerService { internal: SafetyRules }] *)
Record SerializerService := mkSerializerService { internal : SafetyRules }.

(** The [match input { ... }] of [handle_message]: call the engine and
    encode its result, keeping the engine's new state. *)
Definition encode_output {T} (enc : T -> list byte)
  (r : Result T Error * SafetyRules) : Result (list byte) BcsError * SafetyRules :=
  (to_bytes (enc_result enc) (fst r), snd r).

(** [SerializerService::handle_message] *)
Definition handle_message (svc : SerializerService) (input_message : list byte)
  : Result (list byte) Error * SerializerService :=
  match from_bytes dec_input input_message with
  | Err e => (Err (error_of_bcs e), svc)
  | Ok input =>
      let s := internal svc in
      let '(output, s') :=
        match input with
        | ConsensusState => encode_output enc_consensus_state (consensus_state s)
        | Initialize li => encode_output enc_unit (initialize s li)
        | ConstructAndSignVote vote_proposal =>
            encode_output enc_vote (construct_and_sign_vote s vote_proposal)
        | SignProposal block_data => encode_output enc_signature (sign_proposal s block_data)
        | SignTimeout timeout => encode_output enc_signature (sign_timeout s timeout)
        | SignTimeoutWithQC timeout maybe_tc =>
            encode_output enc_signature (sign_timeout_with_qc s timeout maybe_tc)
        | ConstructAndSignVoteTwoChain vote_proposal maybe_tc =>
            encode_output enc_vote (construct_and_sign_vote_two_chain s vote_proposal maybe_tc)
        | SignCommitVote ledger_info new_ledger_info =>
            encode_output enc_signature (sign_commit_vote s ledger_info new_ledger_info)
        end in
      match output with
      | Ok bytes => (Ok bytes, mkSerializerService s')
      | Err e => (Err (error_of_bcs e), mkSerializerService s')
      end
  end.

(** [LocalService::request]: the client holds the service behind an
    [Arc<RwLock<_>>] and takes the write lock for the whole call, so a
    request is one transition of the shared service. *)
Definition local_request (svc : SerializerService) (input : SafetyRulesInput)
  : Result (list byte) Error * SerializerService :=
  match to_bytes enc_input input with
  | Err e => (Err (error_of_bcs e), svc)
  | Ok input_message => handle_message svc input_message
  end.

(** The body shared by every [SerializerClient] method:
    [let response = self.request(input)?; bcs::from_bytes(&response)?]. *)
Definition client_call {T} (dec : Dec T) (svc : SerializerService) (input : SafetyRulesInput)
  : Result T Error * SerializerService :=
  match local_request svc input with
  | (Err e, svc') => (Err e, svc')
  | (Ok response, svc') =>
      match from_bytes (dec_result dec) response with
      | Err e => (Err (error_of_bcs e), svc')
      | Ok r => (r, svc')
      end
  end.

(** A direct engine call seen from the client: the typed result, and the
    service around the engine's new state. *)
Definition lift_service {T} (r : Result T Error * SafetyRules) : Result T Error * SerializerService :=
  (fst r, mkSerializerService (snd r)).

Definition client_consensus_state (svc : SerializerService) :=
  client_call dec_consensus_state svc ConsensusState.
Definition client_initialize (svc : SerializerService) (proof : EpochChangeProof) :=
  client_call dec_unit svc (Initialize proof).
Definition client_construct_and_sign_vote (svc : SerializerService)
  (vote_proposal : MaybeSignedVoteProposal) :=
  client_call dec_vote svc (ConstructAndSignVote vote_proposal).
Definition client_sign_proposal (svc : SerializerService) (block_data : BlockData) :=
  client_call dec_signature svc (SignProposal block_data).
Definition client_sign_timeout (svc : SerializerService) (timeout : Timeout) :=
  client_call dec_signature svc (SignTimeout timeout).
Definition client_sign_timeout_with_qc (svc : SerializerService) (timeout : TwoChainTimeout)
  (timeout_cert : option TwoChainTimeoutCertificate) :=
  client_call dec_signature svc (SignTimeoutWithQC timeout timeout_cert).
Definition client_construct_and_sign_vote_two_chain (svc : SerializerService)
  (vote_proposal : MaybeSignedVoteProposal) (timeout_cert : option TwoChainTimeoutCertificate) :=
  client_call dec_vote svc (ConstructAndSignVoteTwoChain vote_proposal timeout_cert).
Definition client_sign_commit_vote (svc : SerializerService)
  (ledger_info : LedgerInfoWithSignatures) (new_ledger_info : LedgerInfo) :=
  client_call dec_signature svc (SignCommitVote ledger_info new_ledger_info).

End Serializer.

(** ** Serial use of the engine

    The outer consensus engine calls the engine one operation at a time;
    [run] threads the engine state through a sequence of requests and
    collects the typed results. *)

Module Engine.
Import Serializer.

Inductive Output :=
| OutConsensusState (r : Result Types.ConsensusState Error)
| OutUnit (r : Result unit Error)
| OutVote (r : Result Vote Error)
| OutSignature (r : Result Signature Error).

Definition map_fst {A B C} (f : A -> B) (p : A * C) : B * C := (f (fst p), snd p).

Definition execute (s : SafetyRules) (input : SafetyRulesInput) : Output * SafetyRules :=
  match input with
  | ConsensusState => map_fst OutConsensusState (consensus_state s)
  | Initialize p => map_fst OutUnit (initialize s p)
  | ConstructAndSignVote vp => map_fst OutVote (construct_and_sign_vote s vp)
  | SignProposal bd => map_fst OutSignature (sign_proposal s bd)
  | SignTimeout t => map_fst OutSignature (sign_timeout s t)
  | SignTimeoutWithQC t tc => map_fst OutSignature (sign_timeout_with_qc s t tc)
  | ConstructAndSignVoteTwoChain vp tc =>
      map_fst OutVote (construct_and_sign_vote_two_chain s vp tc)
  | SignCommitVote li nli => map_fst OutSignature (sign_commit_vote s li nli)
  end.

Fixpoint run (s : SafetyRules) (reqs : list SafetyRulesInput) : list Output * SafetyRules :=
  match reqs with
  | [] => ([], s)
  | r :: rest =>
      let '(o, s1) := execute s r in
      let '(os, s2) := run s1 rest in
      (o :: os, s2)
  end.

(** The signed votes among a sequence of results, in order. *)
Definition signed_votes (os : list Output) : list Vote :=
  flat_map (fun o => match o with OutVote (Ok v) => [v] | _ => [] end) os.

(** A vote lies beyond the engine's voting history: of a later epoch, or
    of the current epoch and a round above [last_voted_round]. *)
Definition beyond (s : SafetyRules) (v : Vote) : Prop :=
  epoch (sr_safety_data s) < vote_epoch v
  \/ (vote_epoch v = epoch (sr_safety_data s)
      /\ last_voted_round (sr_safety_data s) < vote_round v).

(** The bytes [handle_message] returns for a typed result. *)
Definition encode_out (o : Output) : list byte :=
  match o with
  | OutConsensusState r => Wire.enc_result Wire.enc_consensus_state r
  | OutUnit r => Wire.enc_result Wire.enc_unit r
  | OutVote r => Wire.enc_result Wire.enc_vote r
  | OutSignature r => Wire.enc_result Wire.enc_signature r
  end.

(** Every [u64] of the engine state is below [2^64]. *)
Definition safety_rules_ok (s : SafetyRules) : bool :=
  let sd := sr_safety_data s in
  Bcs.u64_ok (sr_author s) && Bcs.u64_ok (epoch sd) && Bcs.u64_ok (last_voted_round sd)
  && Bcs.u64_ok (preferred_round sd) && Wire.option_ok Wire.vote_ok (last_vote sd).

End Engine.

(** ** The client over any transport

    [SerializerClient] holds a [Box<dyn TSerializerClient>]: the
    in-process [LocalService] of [SerializerClient::new], or any transport
    given to [SerializerClient::new_client].  A transport is modelled by
    its [request] over a state of its own. *)

Module Client.
Import Bcs Wire Serializer Engine.

(** [trait TSerializerClient { fn request(&mut self, input) -> Result<Vec<u8>, Error> }] *)
Class TSerializerClient (St : Type) :=
  request : St -> SafetyRulesInput -> Result (list byte) Error * St.

(** [impl TSerializerClient for LocalService] *)
#[export] Instance LocalService : TSerializerClient SerializerService := local_request.

(** The body of every [TSafetyRules] method of [SerializerClient]:
    [let response = self.request(input)?; bcs::from_bytes(&response)?]. *)
Definition serializer_client_call {St} `{TSerializerClient St} {T} (dec : Dec T)
  (st : St) (input : SafetyRulesInput) : Result T Error * St :=
  match request st input with
  | (Err e, st') => (Err e, st')
  | (Ok response, st') =>
      match from_bytes (dec_result dec) response with
      | Err e => (Err (error_of_bcs e), st')
      | Ok r => (r, st')
      end
  end.

(** The [SerializerClient] method named by a request, with the result type
    that method decodes. *)
Definition client_execute {St} `{TSerializerClient St} (st : St) (input : SafetyRulesInput)
  : Output * St :=
  match input with
  | ConsensusState => map_fst OutConsensusState (serializer_client_call dec_consensus_state st input)
  | Initialize _ => map_fst OutUnit (serializer_client_call dec_unit st input)
  | ConstructAndSignVote _ => map_fst OutVote (serializer_client_call dec_vote st input)
  | SignProposal _ => map_fst OutSignature (serializer_client_call dec_signature st input)
  | SignTimeout _ => map_fst OutSignature (serializer_client_call dec_signature st input)
  | SignTimeoutWithQC _ _ => map_fst OutSignature (serializer_client_call dec_signature st input)
  | ConstructAndSignVoteTwoChain _ _ => map_fst OutVote (serializer_client_call dec_vote st input)
  | SignCommitVote _ _ => map_fst OutSignature (serializer_client_call dec_signature st input)
  end.

(** The outer consensus engine calling the client once per request. *)
Fixpoint client_run {St} `{TSerializerClient St} (st : St) (reqs : list SafetyRulesInput)
  : list Output * St :=
  match reqs with
  | [] => ([], st)
  | r :: rest =>
      let '(o, st1) := client_execute st r in
      let '(os, st2) := client_run st1 rest in
      (o :: os, st2)
  end.

End Client.

(** ** Threads sharing one [LocalService]

    [SerializerClient::new] wraps an [Arc<RwLock<SerializerService>>];
    clients on several threads may share it.  [LocalService::request]
    runs
    [let input_message = bcs::to_bytes(&input)?;
     self.serializer_service.write().handle_message(input_message)]:
    the write guard returned by [write()] is a temporary of the second
    statement, so it is held from before [handle_message] starts until
    after it returns.  Each call is split into its steps: encoding,
    taking the guard, decoding, the engine reading and then writing its
    state, encoding the result, and dropping the guard.  A scheduler picks
    which thread steps next; [write()] blocks while another thread holds
    the guard, and the service has no other lock holders. *)

Module Concurrent.
Import Bcs Wire Serializer Engine.

(** Where a thread is inside [LocalService::request]. *)
Inductive Pc :=
| Start
| Encoded (input_message : list byte)
| Locked (input_message : list byte)
| Decoded (input : SafetyRulesInput)
| Loaded (input : SafetyRulesInput) (s : SafetyRules)
| Stored (output : Output)
| Replied (r : Result (list byte) Error)
| Done (r : Result (list byte) Error).

Record Thread := mkThread { th_input : SafetyRulesInput; th_pc : Pc }.

(** The write guard's holder, the shared service, and the threads. *)
Record Config := mkConfig {
  guard : option nat; shared : SerializerService; threads : nat -> Thread }.

(** The steps taken while holding the write guard. *)
Definition in_guard (pc : Pc) : bool :=
  match pc with
  | Locked _ | Decoded _ | Loaded _ _ | Stored _ | Replied _ => true
  | Start | Encoded _ | Done _ => false
  end.

Definition set_pc (ths : nat -> Thread) (t : nat) (pc : Pc) : nat -> Thread :=
  fun u => if Nat.eqb u t then mkThread (th_input (ths t)) pc else ths u.

(** One step of thread [t]; [None] when it is blocked on [write()] or
    has returned. *)
Definition step (c : Config) (t : nat) : option Config :=
  let th := threads c t in
  let go g svc pc := Some (mkConfig g svc (set_pc (threads c) t pc)) in
  match th_pc th with
  | Start =>
      match to_bytes enc_input (th_input th) with
      | Err e => go (guard c) (shared c) (Done (Err (error_of_bcs e)))
      | Ok m => go (guard c) (shared c) (Encoded m)
      end
  | Encoded m =>
      match guard c with
      | None => go (Some t) (shared c) (Locked m)
      | Some _ => None
      end
  | Locked m =>
      match from_bytes dec_input m with
      | Err e => go (guard c) (shared c) (Replied (Err (error_of_bcs e)))
      | Ok i => go (guard c) (shared c) (Decoded i)
      end
  | Decoded i => go (guard c) (shared c) (Loaded i (internal (shared c)))
  | Loaded i s =>
      go (guard c) (mkSerializerService (snd (execute s i))) (Stored (fst (execute s i)))
  | Stored o =>
      match to_bytes encode_out o with
      | Ok bytes => go (guard c) (shared c) (Replied (Ok bytes))
      | Err e => go (guard c) (shared c) (Replied (Err (error_of_bcs e)))
      end
  | Replied r => go None (shared c) (Done r)
  | Done _ => None
  end.

(** A schedule: the thread picked at each turn; a blocked or finished
    thread's turn passes. *)
Fixpoint exec (c : Config) (sched : list nat) : Config :=
  match sched with
  | [] => c
  | t :: ts =>
      match step c t with
      | Some c' => exec c' ts
      | None => exec c ts
      end
  end.

(** Every thread about to call [request] with its own input. *)
Definition init (svc : SerializerService) (inputs : nat -> SafetyRulesInput) : Config :=
  mkConfig None svc (fun t => mkThread (inputs t) Start).

(** The requests of [order] run one after the other through
    [LocalService::request], with each thread's reply. *)
Fixpoint serial (svc : SerializerService) (inputs : nat -> SafetyRulesInput) (order : list nat)
  : list (nat * Result (list byte) Error) * SerializerService :=
  match order with
  | [] => ([], svc)
  | t :: rest =>
      let '(r, svc1) := local_request svc (inputs t) in
      let '(rs, svc2) := serial svc1 inputs rest in
      ((t, r) :: rs, svc2)
  end.

(** What is left of [handle_message] for a thread holding the guard. *)
Definition finish (input : SafetyRulesInput) (pc : Pc) (svc : SerializerService)
  : Result (list byte) Error * SerializerService :=
  match pc with
  | Locked m => handle_message svc m
  | Decoded i =>
      (Ok (encode_out (fst (execute (internal svc) i))),
       mkSerializerService (snd (execute (internal svc) i)))
  | Loaded i s => (Ok (encode_out (fst (execute s i))), mkSerializerService (snd (execute s i)))
  | Stored o => (Ok (encode_out o), svc)
  | Replied r => (r, svc)
  | Start | Encoded _ | Done _ => local_request svc input
  end.

(** The invariant of the interleavings, for [log] the finished threads in
    the order they held the guard.  With no holder, no thread is inside
    the guard and the service is the one the serial run of [log] leaves;
    with holder [h], only [h] is inside the guard, and finishing its
    request from the current service gives the serial run's next step. *)
Definition guard_inv (svc0 : SerializerService) (inputs : nat -> SafetyRulesInput)
  (c : Config) (log : list nat) : Prop :=
  match guard c with
  | None =>
      (forall t, in_guard (th_pc (threads c t)) = false)
      /\ shared c = snd (serial svc0 inputs log)
  | Some h =>
      (forall t, in_guard (th_pc (threads c t)) = true -> t = h)
      /\ in_guard (th_pc (threads c h)) = true
      /\ finish (inputs h) (th_pc (threads c h)) (shared c)
         = local_request (snd (serial svc0 inputs log)) (inputs h)
  end.

Definition guarded_inv (svc0 : SerializerService) (inputs : nat -> SafetyRulesInput)
  (c : Config) (log : list nat) : Prop :=
  NoDup log
  /\ (forall t, th_input (threads c t) = inputs t)
  /\ (forall t, In t log <-> exists r, th_pc (threads c t) = Done r)
  /\ (forall t r, th_pc (threads c t) = Done r -> In (t, r) (fst (serial svc0 inputs log)))
  /\ (forall t m, th_pc (threads c t) = Encoded m -> to_bytes enc_input (inputs t) = Ok m)
  /\ guard_inv svc0 inputs c log.

End Concurrent.

(** ** Concrete inputs *)

Module Examples.
Import Serializer.

(** Section 8 of the spec: epoch 5, [last_voted_round = 10],
    [preferred_round = 8]. *)
Definition state_5_10_8 : SafetyRules :=
  mkSafetyRules true 42 true (mkSafetyData 5 10 8 None).

(** The same persistent state before [initialize] has run. *)
Definition uninitialized_5_10_8 : SafetyRules :=
  mkSafetyRules false 42 true (mkSafetyData 5 10 8 None).

Definition proposal (ep round qc_round : N) : MaybeSignedVoteProposal :=
  mkMaybeSignedVoteProposal (mkVoteProposal ep round 77 qc_round) None.

Definition proof_for (ep : N) : EpochChangeProof := mkEpochChangeProof ep true true.

End Examples.

(** * Properties *)

(** ** Round trip of the byte codec *)

Module BcsFacts.
Import Bcs.

Lemma to_N_byte_of_N n : Byte.to_N (byte_of_N n) = n mod 256.
Proof.
  unfold byte_of_N.
  destruct (Byte.of_N (n mod 256)) eqn:E.
  - apply Byte.to_of_N; exact E.
  - apply Byte.of_N_None_iff in E.
    pose proof (N.mod_lt n 256). lia.
Qed.

Lemma bind_enc {A B} (d : Dec A) (k : A -> Dec B) bs a rest :
  d bs = Some (a, rest) -> bind d k bs = k a rest.
Proof. intros H. unfold bind. rewrite H. reflexivity. Qed.

Lemma dec_uint_enc k n rest :
  n < 256 ^ N.of_nat k -> dec_uint k (enc_uint k n ++ rest) = Some (n, rest).
Proof.
  revert n. induction k as [|k IH]; intros n Hn.
  - simpl in Hn. assert (n = 0) by lia. subst. reflexivity.
  - cbn [enc_uint dec_uint app].
    unfold bind at 1; cbn [read_byte].
    rewrite (bind_enc _ _ _ (n / 256) rest).
    + unfold ret. rewrite to_N_byte_of_N.
      f_equal. f_equal. pose proof (N.div_mod n 256). lia.
    + apply IH. rewrite Nat2N.inj_succ, N.pow_succ_r' in Hn.
      apply N.Div0.div_lt_upper_bound; lia.
Qed.

Lemma dec_u64_enc n rest :
  u64_ok n = true -> dec_u64 (enc_u64 n ++ rest) = Some (n, rest).
Proof.
  unfold u64_ok, u64_max. intros H. apply N.ltb_lt in H.
  apply dec_uint_enc. exact H.
Qed.

Lemma dec_bool_enc b rest : dec_bool (enc_bool b ++ rest) = Some (b, rest).
Proof. destruct b; reflexivity. Qed.

Lemma dec_option_enc {A} (enc : A -> list byte) (dec : Dec A) (ok : A -> bool) :
  (forall a rest, ok a = true -> dec (enc a ++ rest) = Some (a, rest)) ->
  forall o rest, Wire.option_ok ok o = true ->
  dec_option dec (enc_option enc o ++ rest) = Some (o, rest).
Proof.
  intros Hrt [a|] rest Hok; [|reflexivity].
  cbn [enc_option app Wire.option_ok] in *.
  unfold dec_option, bind at 1; cbn [read_byte].
  rewrite (bind_enc _ _ _ a rest) by (apply Hrt; exact Hok).
  reflexivity.
Qed.

Lemma dec_tag_enc count i rest :
  (i < count)%nat -> (count <= 256)%nat ->
  dec_tag count (enc_tag i ++ rest) = Some (i, rest).
Proof.
  intros Hi Hc. unfold dec_tag, enc_tag, bind; cbn [read_byte app].
  rewrite to_N_byte_of_N, N.mod_small by lia.
  replace (N.of_nat i <? N.of_nat count) with true by (symmetry; apply N.ltb_lt; lia).
  unfold ret. rewrite Nat2N.id. reflexivity.
Qed.

End BcsFacts.

Module WireFacts.
Import Bcs BcsFacts Wire.

Create HintDb bcs_rt.
#[export] Hint Resolve dec_u64_enc dec_bool_enc : bcs_rt.

(** Decode a concatenation of encodings one field at a time. *)
Ltac split_ok :=
  repeat match goal with
         | H : (_ && _) = true |- _ => apply andb_prop in H; destruct H
         end.

#[export] Hint Extern 1 (dec_tag _ _ = _) => apply dec_tag_enc; lia : bcs_rt.

Ltac dec_fields :=
  cbv beta iota;
  repeat rewrite <- app_assoc;
  repeat (lazymatch goal with
          | |- bind ?d ?k ?bs = _ =>
              erewrite (bind_enc d k bs) by eauto with bcs_rt; cbv beta iota
          end);
  try reflexivity.

Lemma dec_signature_enc x rest :
  signature_ok x = true -> dec_signature (enc_signature x ++ rest) = Some (x, rest).
Proof. intros H; destruct x; unfold signature_ok in H; cbn -[u64_ok option_ok] in H; split_ok. unfold dec_signature, enc_signature. dec_fields. Qed.
#[export] Hint Resolve dec_signature_enc : bcs_rt.

Lemma dec_vote_enc x rest :
  vote_ok x = true -> dec_vote (enc_vote x ++ rest) = Some (x, rest).
Proof. intros H; destruct x; unfold vote_ok in H; cbn -[u64_ok option_ok] in H; split_ok. unfold dec_vote, enc_vote. dec_fields. Qed.
#[export] Hint Resolve dec_vote_enc : bcs_rt.

Lemma dec_vote_proposal_enc x rest :
  vote_proposal_ok x = true -> dec_vote_proposal (enc_vote_proposal x ++ rest) = Some (x, rest).
Proof. intros H; destruct x; unfold vote_proposal_ok in H; cbn -[u64_ok option_ok] in H; split_ok. unfold dec_vote_proposal, enc_vote_proposal. dec_fields. Qed.
#[export] Hint Resolve dec_vote_proposal_enc : bcs_rt.

Lemma dec_option_signature_enc o rest :
  option_ok signature_ok o = true ->
  dec_option dec_signature (enc_option enc_signature o ++ rest) = Some (o, rest).
Proof. apply dec_option_enc. exact dec_signature_enc. Qed.
#[export] Hint Resolve dec_option_signature_enc : bcs_rt.

Lemma dec_maybe_signed_vote_proposal_enc x rest :
  maybe_signed_vote_proposal_ok x = true ->
  dec_maybe_signed_vote_proposal (enc_maybe_signed_vote_proposal x ++ rest) = Some (x, rest).
Proof.
  intros H; destruct x; unfold maybe_signed_vote_proposal_ok in H; cbn -[u64_ok option_ok] in H; split_ok.
  unfold dec_maybe_signed_vote_proposal, enc_maybe_signed_vote_proposal. dec_fields.
Qed.
#[export] Hint Resolve dec_maybe_signed_vote_proposal_enc : bcs_rt.

Lemma dec_block_data_enc x rest :
  block_data_ok x = true -> dec_block_data (enc_block_data x ++ rest) = Some (x, rest).
Proof. intros H; destruct x; unfold block_data_ok in H; cbn -[u64_ok option_ok] in H; split_ok. unfold dec_block_data, enc_block_data. dec_fields. Qed.
#[export] Hint Resolve dec_block_data_enc : bcs_rt.

Lemma dec_timeout_enc x rest :
  timeout_ok x = true -> dec_timeout (enc_timeout x ++ rest) = Some (x, rest).
Proof. intros H; destruct x; unfold timeout_ok in H; cbn -[u64_ok option_ok] in H; split_ok. unfold dec_timeout, enc_timeout. dec_fields. Qed.
#[export] Hint Resolve dec_timeout_enc : bcs_rt.

Lemma dec_two_chain_timeout_enc x rest :
  two_chain_timeout_ok x = true ->
  dec_two_chain_timeout (enc_two_chain_timeout x ++ rest) = Some (x, rest).
Proof. intros H; destruct x; unfold two_chain_timeout_ok in H; cbn -[u64_ok option_ok] in H; split_ok. unfold dec_two_chain_timeout, enc_two_chain_timeout. dec_fields. Qed.
#[export] Hint Resolve dec_two_chain_timeout_enc : bcs_rt.

Lemma dec_tc_enc x rest :
  tc_ok x = true -> dec_tc (enc_tc x ++ rest) = Some (x, rest).
Proof. intros H; destruct x; unfold tc_ok in H; cbn -[u64_ok option_ok] in H; split_ok. unfold dec_tc, enc_tc. dec_fields. Qed.
#[export] Hint Resolve dec_tc_enc : bcs_rt.

Lemma dec_option_tc_enc o rest :
  option_ok tc_ok o = true -> dec_option dec_tc (enc_option enc_tc o ++ rest) = Some (o, rest).
Proof. apply dec_option_enc. exact dec_tc_enc. Qed.
#[export] Hint Resolve dec_option_tc_enc : bcs_rt.

Lemma dec_ledger_info_enc x rest :
  ledger_info_ok x = true -> dec_ledger_info (enc_ledger_info x ++ rest) = Some (x, rest).
Proof. intros H; destruct x; unfold ledger_info_ok in H; cbn -[u64_ok option_ok] in H; split_ok. unfold dec_ledger_info, enc_ledger_info. dec_fields. Qed.
#[export] Hint Resolve dec_ledger_info_enc : bcs_rt.

Lemma dec_ledger_info_with_signatures_enc x rest :
  ledger_info_with_signatures_ok x = true ->
  dec_ledger_info_with_signatures (enc_ledger_info_with_signatures x ++ rest) = Some (x, rest).
Proof.
  intros H; destruct x; unfold ledger_info_with_signatures_ok in H; cbn -[u64_ok option_ok] in H.
  unfold dec_ledger_info_with_signatures, enc_ledger_info_with_signatures. dec_fields.
Qed.
#[export] Hint Resolve dec_ledger_info_with_signatures_enc : bcs_rt.

Lemma dec_epoch_change_proof_enc x rest :
  epoch_change_proof_ok x = true ->
  dec_epoch_change_proof (enc_epoch_change_proof x ++ rest) = Some (x, rest).
Proof. intros H; destruct x; unfold epoch_change_proof_ok in H; cbn -[u64_ok option_ok] in H. unfold dec_epoch_change_proof, enc_epoch_change_proof. dec_fields. Qed.
#[export] Hint Resolve dec_epoch_change_proof_enc : bcs_rt.

Lemma dec_consensus_state_enc x rest :
  consensus_state_ok x = true -> dec_consensus_state (enc_consensus_state x ++ rest) = Some (x, rest).
Proof. intros H; destruct x; unfold consensus_state_ok in H; cbn -[u64_ok option_ok] in H; split_ok. unfold dec_consensus_state, enc_consensus_state. dec_fields. Qed.
#[export] Hint Resolve dec_consensus_state_enc : bcs_rt.

Lemma dec_unit_enc x rest : unit_ok x = true -> dec_unit (enc_unit x ++ rest) = Some (x, rest).
Proof. destruct x; reflexivity. Qed.
#[export] Hint Resolve dec_unit_enc : bcs_rt.

Lemma dec_error_enc e rest : error_ok e = true -> dec_error (enc_error e ++ rest) = Some (e, rest).
Proof.
  intros H; destruct e; unfold error_ok in H; split_ok; unfold dec_error, enc_error; dec_fields.
Qed.
#[export] Hint Resolve dec_error_enc : bcs_rt.

Lemma dec_result_enc {T} (enc : T -> list byte) (dec : Dec T) (ok : T -> bool) :
  (forall a rest, ok a = true -> dec (enc a ++ rest) = Some (a, rest)) ->
  forall r rest, result_ok ok r = true ->
  dec_result dec (enc_result enc r ++ rest) = Some (r, rest).
Proof.
  intros Hrt r rest H; destruct r; unfold result_ok in H; unfold dec_result, enc_result; dec_fields.
Qed.

End WireFacts.

Module SerializerFacts.
Import Bcs BcsFacts Wire WireFacts Serializer.

Lemma dec_input_enc i rest : input_ok i = true -> dec_input (enc_input i ++ rest) = Some (i, rest).
Proof.
  intros H; destruct i; unfold input_ok in H; split_ok; unfold dec_input, enc_input; dec_fields.
Qed.

Lemma from_bytes_enc {A} (enc : A -> list byte) (dec : Dec A) a :
  (forall rest, dec (enc a ++ rest) = Some (a, rest)) -> from_bytes dec (enc a) = Ok a.
Proof.
  intros H. unfold from_bytes. rewrite <- (app_nil_r (enc a)), H. reflexivity.
Qed.

End SerializerFacts.

(** ** Engine steps *)

Module EngineFacts.
Import Serializer Engine.

(** Turn the boolean guards of the engine into arithmetic facts. *)
Ltac bool_facts :=
  repeat match goal with
         | H : (_ && _) = true |- _ => apply andb_prop in H; destruct H
         | H : (_ && _) = false |- _ => apply andb_false_iff in H; destruct H
         | H : negb _ = true |- _ => apply negb_true_iff in H
         | H : negb _ = false |- _ => apply negb_false_iff in H
         | H : (_ =? _) = true |- _ => apply N.eqb_eq in H
         | H : (_ =? _) = false |- _ => apply N.eqb_neq in H
         | H : (_ <? _) = true |- _ => apply N.ltb_lt in H
         | H : (_ <? _) = false |- _ => apply N.ltb_ge in H
         | H : (_ <=? _) = true |- _ => apply N.leb_le in H
         | H : (_ <=? _) = false |- _ => apply N.leb_gt in H
         end.

Ltac case_guards :=
  repeat match goal with
         | |- context [if ?c then _ else _] =>
             let E := fresh "E" in destruct c eqn:E
         end.

Lemma vote_with_lock_cases s vp ok lock :
  let sd := sr_safety_data s in
  let '(r, s') := vote_with_lock s vp ok lock in
  match r with
  | Ok v =>
      sr_initialized s = true /\ vp_epoch vp = epoch sd
      /\ vp_qc_round vp < vp_round vp /\ ok = true
      /\ last_voted_round sd < vp_round vp /\ preferred_round sd <= lock
      /\ v = mkVote (vp_epoch vp) (vp_round vp) (vp_block_id vp) (sr_author s)
               (sign s 1 (vp_epoch vp) (vp_round vp) (vp_block_id vp))
      /\ s' = with_safety_data s (mkSafetyData (epoch sd) (vp_round vp)
                                    (N.max (preferred_round sd) lock) (Some v))
  | Err e =>
      s' = s
      /\ ~ (sr_initialized s = true /\ vp_epoch vp = epoch sd
            /\ vp_qc_round vp < vp_round vp /\ ok = true
            /\ last_voted_round sd < vp_round vp /\ preferred_round sd <= lock)
      /\ (sr_initialized s = true -> vp_epoch vp = epoch sd ->
          vp_qc_round vp < vp_round vp -> ok = true -> e = SafetyViolation)
  end.
Proof.
  unfold vote_with_lock; cbn zeta.
  case_guards; bool_facts; cbn;
    repeat split; try reflexivity; try lia; try congruence;
    intros; try tauto; try lia; try congruence;
    intuition (try lia; try congruence).
Qed.

(** Every step keeps the epoch or raises it, and within an epoch keeps
    [last_voted_round] or raises it; only a successful [initialize] that
    raises the epoch lowers it. *)
Lemma execute_step s r :
  let '(o, s') := execute s r in
  epoch (sr_safety_data s) <= epoch (sr_safety_data s')
  /\ (epoch (sr_safety_data s') = epoch (sr_safety_data s) ->
      last_voted_round (sr_safety_data s) <= last_voted_round (sr_safety_data s'))
  /\ (last_voted_round (sr_safety_data s') < last_voted_round (sr_safety_data s) ->
      exists p, r = Initialize p /\ o = OutUnit (Ok tt)
           /\ epoch (sr_safety_data s) < epoch (sr_safety_data s')).
Proof.
  destruct r; cbn [execute map_fst fst snd].
  - unfold consensus_state; case_guards; cbn; repeat split; lia.
  - unfold initialize; case_guards; cbn.
    + bool_facts. repeat split; try lia. intros. exists proof. repeat split; lia.
    + repeat split; lia.
  - unfold construct_and_sign_vote.
    pose proof (vote_with_lock_cases s (msvp_vote_proposal vote_proposal) true
                  (vp_qc_round (msvp_vote_proposal vote_proposal))) as H.
    destruct (vote_with_lock _ _ _ _) as [[v|e] s']; cbn in H |- *.
    + destruct H as (_ & _ & _ & _ & Hl & _ & _ & ->); cbn. repeat split; lia.
    + destruct H as (-> & _). repeat split; lia.
  - unfold sign_proposal; case_guards; cbn; repeat split; lia.
  - unfold sign_timeout, timeout_update; case_guards; cbn; repeat split; lia.
  - unfold sign_timeout_with_qc, timeout_update; case_guards; cbn; repeat split; lia.
  - unfold construct_and_sign_vote_two_chain.
    match goal with |- context [vote_with_lock s ?vp ?ok ?lk] =>
      pose proof (vote_with_lock_cases s vp ok lk) as H;
      destruct (vote_with_lock s vp ok lk) as [[v|e] s'] end; cbn in H |- *.
    + destruct H as (_ & _ & _ & _ & Hl & _ & _ & ->); cbn. repeat split; lia.
    + destruct H as (-> & _). repeat split; lia.
  - unfold sign_commit_vote; case_guards; cbn; repeat split; lia.
Qed.

(** A signed vote is of the current epoch, above [last_voted_round], and
    becomes the new [last_voted_round]. *)
Lemma execute_vote s r v s' :
  execute s r = (OutVote (Ok v), s') ->
  vote_epoch v = epoch (sr_safety_data s)
  /\ last_voted_round (sr_safety_data s) < vote_round v
  /\ epoch (sr_safety_data s') = epoch (sr_safety_data s)
  /\ last_voted_round (sr_safety_data s') = vote_round v.
Proof.
  destruct r; cbn [execute map_fst]; intros Hx; injection Hx as Ho Hs;
    try discriminate Ho;
    [unfold construct_and_sign_vote in Ho, Hs | unfold construct_and_sign_vote_two_chain in Ho, Hs];
    cbv zeta in Ho, Hs;
    match type of Ho with context [vote_with_lock s ?vp ?ok ?lk] =>
      pose proof (vote_with_lock_cases s vp ok lk) as H;
      destruct (vote_with_lock s vp ok lk) as [[w|e] s0] end;
    cbn in H, Ho, Hs; try discriminate Ho; injection Ho as <-; subst s0;
    destruct H as (_ & He & _ & _ & Hl & _ & -> & ->); cbn; repeat split; lia.
Qed.

End EngineFacts.

(** ** Serializer service and client *)

Module ServiceFacts.
Import Bcs BcsFacts Wire WireFacts Serializer SerializerFacts Engine EngineFacts.

(** A request that decodes is run by the engine and its typed result is
    returned encoded, inside [Ok]. *)
Lemma handle_message_decoded svc bytes input :
  from_bytes dec_input bytes = Ok input ->
  handle_message svc bytes =
    (Ok (encode_out (fst (execute (internal svc) input))),
     mkSerializerService (snd (execute (internal svc) input))).
Proof.
  intros H. unfold handle_message. rewrite H.
  destruct input; reflexivity.
Qed.

Lemma handle_message_undecoded svc bytes e :
  from_bytes dec_input bytes = Err e -> handle_message svc bytes = (Err SerializationError, svc).
Proof. intros H. unfold handle_message. rewrite H. reflexivity. Qed.

Lemma handle_message_enc_input svc input :
  input_ok input = true ->
  handle_message svc (enc_input input) =
    (Ok (encode_out (fst (execute (internal svc) input))),
     mkSerializerService (snd (execute (internal svc) input))).
Proof.
  intros H. apply handle_message_decoded.
  apply from_bytes_enc. intros rest. apply dec_input_enc. exact H.
Qed.

Lemma client_call_spec {T} (enc : T -> list byte) (dec : Dec T) (ok : T -> bool)
  svc input r svc' :
  (forall a rest, ok a = true -> dec (enc a ++ rest) = Some (a, rest)) ->
  handle_message svc (enc_input input) = (Ok (enc_result enc r), svc') ->
  result_ok ok r = true ->
  client_call dec svc input = (r, svc').
Proof.
  intros Hrt Hh Hok. unfold client_call, local_request, to_bytes. rewrite Hh.
  rewrite (from_bytes_enc (enc_result enc) (dec_result dec) r).
  - reflexivity.
  - intros rest. apply (dec_result_enc enc dec ok Hrt). exact Hok.
Qed.

Lemma u64_ok_max a b : u64_ok a = true -> u64_ok b = true -> u64_ok (N.max a b) = true.
Proof. unfold u64_ok. intros Ha Hb. apply N.ltb_lt in Ha, Hb. apply N.ltb_lt. lia. Qed.

Ltac solve_ok :=
  repeat (first
    [ progress unfold sign, safety_rules_ok, signature_ok, vote_ok, vote_proposal_ok,
        option_ok, maybe_signed_vote_proposal_ok, block_data_ok, timeout_ok,
        two_chain_timeout_ok, tc_ok, ledger_info_ok, ledger_info_with_signatures_ok,
        epoch_change_proof_ok, consensus_state_ok, unit_ok, error_ok, result_ok in *
    | progress cbn -[u64_ok] in * ]);
  repeat match goal with
         | H : (_ && _) = true |- _ => apply andb_prop in H; destruct H
         end;
  repeat (apply andb_true_intro; split);
  first [ assumption | reflexivity | apply u64_ok_max; assumption ].

(** The engine's results have every [u64] below [2^64] when its state and
    the request do. *)
Lemma execute_out_ok s input :
  safety_rules_ok s = true -> input_ok input = true ->
  match fst (execute s input) with
  | OutConsensusState r => result_ok consensus_state_ok r
  | OutUnit r => result_ok unit_ok r
  | OutVote r => result_ok vote_ok r
  | OutSignature r => result_ok signature_ok r
  end = true.
Proof.
  intros Hs Hi.
  destruct s as [init author member [ep lvr pref lv]].
  destruct input; unfold input_ok in Hi; cbn [execute map_fst fst];
  unfold consensus_state, initialize, construct_and_sign_vote, sign_proposal, sign_timeout,
    sign_timeout_with_qc, construct_and_sign_vote_two_chain, sign_commit_vote, vote_with_lock;
  cbn zeta; case_guards; cbn [fst]; solve_ok.
Qed.

End ServiceFacts.

(** ** Runs of the engine *)

Module RunFacts.
Import Serializer Engine EngineFacts.

Lemma run_mono s reqs :
  epoch (sr_safety_data s) <= epoch (sr_safety_data (snd (run s reqs)))
  /\ (epoch (sr_safety_data (snd (run s reqs))) = epoch (sr_safety_data s) ->
      last_voted_round (sr_safety_data s) <= last_voted_round (sr_safety_data (snd (run s reqs)))).
Proof.
  revert s; induction reqs as [|r rest IH]; intros s; cbn [run].
  - cbn. lia.
  - pose proof (execute_step s r) as Hstep.
    destruct (execute s r) as [o s1] eqn:Ex.
    specialize (IH s1).
    destruct (run s1 rest) as [os s2] eqn:Er. cbn [snd] in *.
    destruct Hstep as (He & Hl & _). lia.
Qed.

Lemma beyond_lift s r o s1 w :
  execute s r = (o, s1) -> beyond s1 w -> beyond s w.
Proof.
  intros Ex. pose proof (execute_step s r) as Hstep. rewrite Ex in Hstep.
  destruct Hstep as (He & Hl & _). unfold beyond. lia.
Qed.

(** The votes signed from state [s] on are all beyond [s], and each is
    below every later vote of its epoch. *)
Lemma run_votes s reqs :
  Forall (beyond s) (signed_votes (fst (run s reqs)))
  /\ ForallOrdPairs (fun v1 v2 => vote_epoch v1 = vote_epoch v2 -> vote_round v1 < vote_round v2)
       (signed_votes (fst (run s reqs))).
Proof.
  revert s; induction reqs as [|r rest IH]; intros s; cbn [run].
  - split; constructor.
  - pose proof (execute_vote s r) as Hv.
    pose proof (beyond_lift s r) as Hlift.
    destruct (execute s r) as [o s1] eqn:Ex.
    specialize (IH s1). specialize (Hlift o s1).
    destruct (run s1 rest) as [os s2] eqn:Er. cbn [fst] in *.
    destruct IH as [Hb Hp].
    assert (Hb' : Forall (beyond s) (signed_votes os)).
    { eapply Forall_impl; [|exact Hb]. intros w. apply Hlift. reflexivity. }
    destruct o as [r0|r0|[v|e]|r0]; cbn [signed_votes flat_map app];
      try (split; assumption).
    destruct (Hv v s1 eq_refl) as (Hve & Hvr & Hse & Hsl).
    split.
    + constructor; [|exact Hb']. unfold beyond. lia.
    + constructor; [|exact Hp].
      eapply Forall_impl; [|exact Hb]. intros w Hw Hew.
      unfold beyond in Hw. lia.
Qed.

End RunFacts.

(** * The claims *)

(** ** Threads sharing one [LocalService] *)

Module ConcurrentFacts.
Import Bcs Wire Serializer Engine ServiceFacts Concurrent.

Lemma th_pc_set ths t pc u :
  th_pc (set_pc ths t pc u) = if Nat.eqb u t then pc else th_pc (ths u).
Proof. unfold set_pc. destruct (Nat.eqb u t); reflexivity. Qed.

Lemma th_input_set ths t pc u : th_input (set_pc ths t pc u) = th_input (ths u).
Proof. unfold set_pc. destruct (Nat.eqb_spec u t) as [->|_]; reflexivity. Qed.

Lemma serial_app svc inputs log t :
  serial svc inputs (log ++ [t]) =
    (fst (serial svc inputs log)
       ++ [(t, fst (local_request (snd (serial svc inputs log)) (inputs t)))],
     snd (local_request (snd (serial svc inputs log)) (inputs t))).
Proof.
  revert svc. induction log as [|u log IH]; intros svc; cbn [app serial fst snd].
  - destruct (local_request svc (inputs t)); reflexivity.
  - destruct (local_request svc (inputs u)) as [r svc1]. rewrite IH.
    destruct (serial svc1 inputs log). reflexivity.
Qed.

Lemma NoDup_snoc (log : list nat) t : NoDup log -> ~ In t log -> NoDup (log ++ [t]).
Proof.
  induction log as [|u log IH]; intros Hnd Hn; cbn [app].
  - constructor; [intros []|constructor].
  - inversion Hnd as [|? ? Hu Hnd']; subst. constructor.
    + rewrite in_app_iff. intros [H|[H|[]]]; [exact (Hu H)|]. apply Hn. left. symmetry. exact H.
    + apply IH; [exact Hnd'|]. intros H. apply Hn. right. exact H.
Qed.

(** A step of thread [t] to a state that is not [Done] keeps the
    invariant's facts about the threads. *)
Lemma frame_threads svc0 inputs ths log t p' :
  (forall u, th_input (ths u) = inputs u) ->
  (forall u, In u log <-> exists r, th_pc (ths u) = Done r) ->
  (forall u r, th_pc (ths u) = Done r -> In (u, r) (fst (serial svc0 inputs log))) ->
  (forall u m, th_pc (ths u) = Encoded m -> to_bytes enc_input (inputs u) = Ok m) ->
  (forall r, th_pc (ths t) <> Done r) -> (forall r, p' <> Done r) ->
  (forall m, p' = Encoded m -> to_bytes enc_input (inputs t) = Ok m) ->
  (forall u, th_input (set_pc ths t p' u) = inputs u)
  /\ (forall u, In u log <-> exists r, th_pc (set_pc ths t p' u) = Done r)
  /\ (forall u r, th_pc (set_pc ths t p' u) = Done r -> In (u, r) (fst (serial svc0 inputs log)))
  /\ (forall u m, th_pc (set_pc ths t p' u) = Encoded m -> to_bytes enc_input (inputs u) = Ok m).
Proof.
  intros Hin Hlog Hrep Henc Hold Hnew Hnewenc.
  split; [intros u; rewrite th_input_set; apply Hin|].
  split; [|split]; intros u; rewrite th_pc_set; destruct (Nat.eqb_spec u t) as [->|Hne].
  - split.
    + intros Hu. apply Hlog in Hu as [r Hr]. exfalso. exact (Hold r Hr).
    + intros [r Hr]. exfalso. exact (Hnew r Hr).
  - apply Hlog.
  - intros r Hr. exfalso. exact (Hnew r Hr).
  - apply Hrep.
  - intros m Hm. exact (Hnewenc m Hm).
  - apply Henc.
Qed.

(** A step of a thread outside the guard that stays outside it keeps the
    guard part of the invariant. *)
Lemma frame_outside svc0 inputs g svc ths log t p' :
  in_guard (th_pc (ths t)) = false -> in_guard p' = false ->
  guard_inv svc0 inputs (mkConfig g svc ths) log ->
  guard_inv svc0 inputs (mkConfig g svc (set_pc ths t p')) log.
Proof.
  intros Ht Hp' Hg. unfold guard_inv in *; cbn [guard shared threads] in *.
  destruct g as [h|].
  - destruct Hg as (Hu & Hh & Hfin).
    assert (Hth : h <> t) by (intros ->; congruence).
    split; [|split].
    + intros u. rewrite th_pc_set. destruct (Nat.eqb_spec u t) as [->|_]; [congruence|apply Hu].
    + rewrite th_pc_set. apply Nat.eqb_neq in Hth. rewrite Hth. exact Hh.
    + rewrite th_pc_set. apply Nat.eqb_neq in Hth. rewrite Hth. exact Hfin.
  - destruct Hg as (Hf & Hs). split; [|exact Hs].
    intros u. rewrite th_pc_set. destruct (Nat.eqb_spec u t); [exact Hp'|apply Hf].
Qed.

(** A step of the guard's holder that stays inside the guard and does not
    change what finishing its request gives keeps the guard part. *)
Lemma frame_holder svc0 inputs svc svc' ths log t p' :
  in_guard p' = true ->
  finish (inputs t) p' svc' = finish (inputs t) (th_pc (ths t)) svc ->
  guard_inv svc0 inputs (mkConfig (Some t) svc ths) log ->
  guard_inv svc0 inputs (mkConfig (Some t) svc' (set_pc ths t p')) log.
Proof.
  intros Hp' Hf Hg. unfold guard_inv in *; cbn [guard shared threads] in *.
  destruct Hg as (Hu & Hh & Hfin).
  split; [|split].
  - intros u. rewrite th_pc_set. destruct (Nat.eqb_spec u t) as [->|_]; [reflexivity|apply Hu].
  - rewrite th_pc_set, Nat.eqb_refl. exact Hp'.
  - rewrite th_pc_set, Nat.eqb_refl, Hf. exact Hfin.
Qed.

Lemma guarded_inv_init svc0 inputs : guarded_inv svc0 inputs (init svc0 inputs) [].
Proof.
  unfold guarded_inv, guard_inv, init; cbn [guard shared threads th_pc th_input serial fst snd].
  split; [constructor|]. split; [reflexivity|].
  split; [intros t; split; [intros []|intros [r Hr]; discriminate]|].
  split; [intros t r Hr; discriminate|].
  split; [intros t m Hm; discriminate|].
  split; reflexivity.
Qed.

Lemma guarded_inv_step svc0 inputs c log t c' :
  guarded_inv svc0 inputs c log -> step c t = Some c' ->
  guarded_inv svc0 inputs c' log \/ guarded_inv svc0 inputs c' (log ++ [t]).
Proof.
  destruct c as [g svc ths].
  intros (Hnd & Hin & Hlog & Hrep & Henc & Hg) Hstep.
  unfold step in Hstep; cbv beta zeta in Hstep;
  cbn [threads guard shared] in Hstep, Hin, Hlog, Hrep, Henc.
  assert (Hholder : in_guard (th_pc (ths t)) = true -> g = Some t).
  { intros Ht. unfold guard_inv in Hg; cbn [guard shared threads] in Hg.
    destruct g as [h|].
    - destruct Hg as (Hu & _). f_equal. symmetry. exact (Hu t Ht).
    - destruct Hg as (Hf & _). rewrite Hf in Ht. discriminate. }
  assert (Hnotdone : forall r0 r, Done r0 <> Done r -> True) by (intros; exact I).
  rewrite (Hin t) in Hstep.
  destruct (th_pc (ths t)) as [|m|m|i|i s0|o|r|r] eqn:Hpc; cbn [in_guard] in Hholder;
    try (specialize (Hholder eq_refl); subst g).
  - (* Start: [bcs::to_bytes(&input)?] *)
    cbn [to_bytes] in Hstep. injection Hstep as <-. left.
    destruct (frame_threads svc0 inputs ths log t (Encoded (enc_input (inputs t)))
                Hin Hlog Hrep Henc
      ltac:(intros r' Hr'; congruence) ltac:(intros r' Hr'; congruence)
      ltac:(intros m Hm; injection Hm as <-; reflexivity)) as (F1 & F2 & F3 & F4).
    unfold guarded_inv; cbn [guard shared threads].
    do 5 (split; [assumption|]).
    apply frame_outside; [rewrite Hpc; reflexivity | reflexivity | exact Hg].
  - (* Encoded: [write()] *)
    destruct g as [h|]; [discriminate Hstep|]. injection Hstep as <-. left.
    destruct (frame_threads svc0 inputs ths log t (Locked m) Hin Hlog Hrep Henc
      ltac:(intros r' Hr'; congruence) ltac:(intros r' Hr'; congruence)
      ltac:(intros m' Hm'; discriminate)) as (F1 & F2 & F3 & F4).
    unfold guarded_inv; cbn [guard shared threads].
    do 5 (split; [assumption|]).
    unfold guard_inv in *; cbn [guard shared threads] in *.
    destruct Hg as (Hf & Hs).
    split; [|split].
    + intros u. rewrite th_pc_set. destruct (Nat.eqb_spec u t) as [->|_]; [reflexivity|].
      rewrite Hf. discriminate.
    + rewrite th_pc_set, Nat.eqb_refl. reflexivity.
    + rewrite th_pc_set, Nat.eqb_refl. cbn [finish].
      unfold local_request. rewrite (Henc t m Hpc), <- Hs. reflexivity.
  - (* Locked: [bcs::from_bytes(&input_message)?] *)
    destruct (from_bytes dec_input m) as [i|e] eqn:Hd; injection Hstep as <-; left.
    + destruct (frame_threads svc0 inputs ths log t (Decoded i) Hin Hlog Hrep Henc
      ltac:(intros r' Hr'; congruence) ltac:(intros r' Hr'; congruence)
      ltac:(intros m' Hm'; discriminate)) as (F1 & F2 & F3 & F4).
      unfold guarded_inv; cbn [guard shared threads].
      do 5 (split; [assumption|]).
      apply (frame_holder svc0 inputs svc); [reflexivity | | exact Hg].
      rewrite Hpc. cbn [finish]. symmetry. apply handle_message_decoded. exact Hd.
    + destruct (frame_threads svc0 inputs ths log t (Replied (Err (error_of_bcs e)))
                  Hin Hlog Hrep Henc
      ltac:(intros r' Hr'; congruence) ltac:(intros r' Hr'; congruence)
      ltac:(intros m' Hm'; discriminate)) as (F1 & F2 & F3 & F4).
      unfold guarded_inv; cbn [guard shared threads].
      do 5 (split; [assumption|]).
      apply (frame_holder svc0 inputs svc); [reflexivity | | exact Hg].
      rewrite Hpc. cbn [finish]. rewrite (handle_message_undecoded svc m e Hd). reflexivity.
  - (* Decoded: the engine reads its state *)
    injection Hstep as <-. left.
    destruct (frame_threads svc0 inputs ths log t (Loaded i (internal svc)) Hin Hlog Hrep Henc
      ltac:(intros r' Hr'; congruence) ltac:(intros r' Hr'; congruence)
      ltac:(intros m' Hm'; discriminate)) as (F1 & F2 & F3 & F4).
    unfold guarded_inv; cbn [guard shared threads].
    do 5 (split; [assumption|]).
    apply (frame_holder svc0 inputs svc); [reflexivity | | exact Hg].
    rewrite Hpc. reflexivity.
  - (* Loaded: the engine writes its new state *)
    injection Hstep as <-. left.
    destruct (frame_threads svc0 inputs ths log t (Stored (fst (execute s0 i)))
                Hin Hlog Hrep Henc
      ltac:(intros r' Hr'; congruence) ltac:(intros r' Hr'; congruence)
      ltac:(intros m' Hm'; discriminate)) as (F1 & F2 & F3 & F4).
    unfold guarded_inv; cbn [guard shared threads].
    do 5 (split; [assumption|]).
    apply (frame_holder svc0 inputs svc); [reflexivity | | exact Hg].
    rewrite Hpc. reflexivity.
  - (* Stored: [bcs::to_bytes] of the typed result *)
    cbn [to_bytes] in Hstep. injection Hstep as <-. left.
    destruct (frame_threads svc0 inputs ths log t (Replied (Ok (encode_out o)))
                Hin Hlog Hrep Henc
      ltac:(intros r' Hr'; congruence) ltac:(intros r' Hr'; congruence)
      ltac:(intros m' Hm'; discriminate)) as (F1 & F2 & F3 & F4).
    unfold guarded_inv; cbn [guard shared threads].
    do 5 (split; [assumption|]).
    apply (frame_holder svc0 inputs svc); [reflexivity | | exact Hg].
    rewrite Hpc. reflexivity.
  - (* Replied: the guard is dropped and [request] returns *)
    injection Hstep as <-. right.
    unfold guard_inv in Hg; cbn [guard shared threads] in Hg.
    destruct Hg as (Hu & _ & Hfin). rewrite Hpc in Hfin. cbn [finish] in Hfin.
    assert (Hnin : ~ In t log).
    { intros Ht. apply Hlog in Ht as [r' Hr']. congruence. }
    unfold guarded_inv, guard_inv; cbn [guard shared threads].
    rewrite serial_app, <- Hfin. cbn [fst snd].
    split; [exact (NoDup_snoc log t Hnd Hnin)|].
    split; [intros u; rewrite th_input_set; apply Hin|].
    split; [|split; [|split; [|split]]].
    + intros u. rewrite in_app_iff, th_pc_set. destruct (Nat.eqb_spec u t) as [->|Hne].
      * split; [intros _; exists r; reflexivity | intros _; right; left; reflexivity].
      * rewrite Hlog. split; [intros [H|[H|[]]]; [exact H | congruence] | intros H; left; exact H].
    + intros u r'. rewrite th_pc_set. destruct (Nat.eqb_spec u t) as [->|Hne].
      * intros H. injection H as <-. apply in_app_iff. right. left. reflexivity.
      * intros H. apply in_app_iff. left. exact (Hrep u r' H).
    + intros u m'. rewrite th_pc_set. destruct (Nat.eqb_spec u t) as [->|Hne].
      * discriminate.
      * apply Henc.
    + intros u. rewrite th_pc_set. destruct (Nat.eqb_spec u t) as [->|Hne]; [reflexivity|].
      destruct (in_guard (th_pc (ths u))) eqn:Hgu; [|reflexivity].
      exfalso. exact (Hne (Hu u Hgu)).
    + reflexivity.
  - discriminate Hstep.
Qed.

Lemma guarded_inv_exec svc0 inputs sched :
  forall c log, guarded_inv svc0 inputs c log ->
  exists log', guarded_inv svc0 inputs (exec c sched) log'.
Proof.
  induction sched as [|t ts IH]; intros c log H; cbn [exec].
  - exists log. exact H.
  - destruct (step c t) as [c'|] eqn:E.
    + destruct (guarded_inv_step svc0 inputs c log t c' H E) as [H'|H']; eapply IH; exact H'.
    + eapply IH. exact H.
Qed.

(** While a thread holds the guard, a step of any other thread leaves the
    service and the guard as they are. *)
Lemma step_non_holder svc0 inputs c log h t c' :
  guarded_inv svc0 inputs c log -> guard c = Some h -> t <> h -> step c t = Some c' ->
  shared c' = shared c /\ guard c' = guard c.
Proof.
  intros (_ & _ & _ & _ & _ & Hg) Hh Hne Hstep.
  unfold guard_inv in Hg. rewrite Hh in Hg. destruct Hg as (Hu & _).
  assert (Ht : in_guard (th_pc (threads c t)) = false).
  { destruct (in_guard _) eqn:E; [exfalso; exact (Hne (Hu t E)) | reflexivity]. }
  unfold step in Hstep; cbv beta zeta in Hstep. rewrite Hh in Hstep.
  destruct (th_pc (threads c t)); cbn [in_guard] in Ht; try discriminate Ht.
  - destruct (to_bytes enc_input _); injection Hstep as <-; cbn [shared guard];
      rewrite Hh; split; reflexivity.
  - discriminate Hstep.
  - discriminate Hstep.
Qed.

(** Two threads ask for a vote in round 11 at the same time, interleaved
    step by step: the second blocks on [write()] until the first has
    dropped the guard, and is then refused. *)
Lemma two_voters_interleaved :
  let c := exec (init (mkSerializerService Examples.state_5_10_8)
                   (fun t => ConstructAndSignVote
                               (Examples.proposal 5 11 (if Nat.eqb t 0%nat then 9 else 10))))
                [0;1;0;1;0;1;0;1;0;1;0;1;0;1;1;1;1;1;1;1]%nat in
  th_pc (threads c 0%nat)
    = Done (Ok (Wire.enc_result Wire.enc_vote (Ok (mkVote 5 11 77 42 (mkSignature 42 1 5 11 77)))))
  /\ th_pc (threads c 1%nat) = Done (Ok (Wire.enc_result Wire.enc_vote (Err SafetyViolation)))
  /\ guard c = None.
Proof. cbv zeta. split; [|split]; vm_compute; reflexivity. Qed.

End ConcurrentFacts.

Module Claims.
Import Bcs Wire WireFacts Serializer SerializerFacts Engine EngineFacts
  ServiceFacts RunFacts Examples.

(** C1 (no equivocation): over any sequence of requests run serially
    against the engine (in particular any sequence of
    [construct_and_sign_vote] and [construct_and_sign_vote_two_chain]
    requests), any two signed votes of the same epoch have strictly
    increasing rounds, so no two signed votes share an epoch and a round. *)
Theorem no_equivocation (s : SafetyRules) (reqs : list SafetyRulesInput) :
  ForallOrdPairs (fun v1 v2 => vote_epoch v1 = vote_epoch v2 -> vote_round v1 < vote_round v2)
    (signed_votes (fst (run s reqs))).
Proof. apply (run_votes s reqs). Qed.

(** C2 fails as stated: before [initialize] the engine refuses a proposal
    that meets the three conditions; a proposal whose QC is not of an
    earlier round is refused as an invalid certificate; and an epoch
    mismatch is reported as [IncorrectEpoch], not as a safety violation. *)
Lemma construct_and_sign_vote_claim_fails :
  fst (construct_and_sign_vote uninitialized_5_10_8 (proposal 5 11 9)) = Err NotInitialized
  /\ fst (construct_and_sign_vote state_5_10_8 (proposal 5 11 11)) = Err InvalidCertificate
  /\ fst (construct_and_sign_vote state_5_10_8 (proposal 6 11 9)) = Err (IncorrectEpoch 5 6).
Proof. repeat split; reflexivity. Qed.

(** C2 (amended): [construct_and_sign_vote] signs exactly when the engine
    is initialized, the epoch matches, the QC round is below the proposal
    round, the proposal round is above [last_voted_round] and the QC round
    reaches [preferred_round]; it then sets [preferred_round] to the max with
    the QC round, [last_voted_round] to the proposal round and [last_vote]
    to the vote.  Otherwise it leaves the state unchanged and returns the
    error of the first check that fails: [NotInitialized] before
    [initialize], [IncorrectEpoch] on an epoch mismatch,
    [InvalidCertificate] when the QC round is not below the proposal round,
    and [SafetyViolation] when one of the two round checks fails. *)
Theorem construct_and_sign_vote_spec (s : SafetyRules) (msvp : MaybeSignedVoteProposal) :
  let vp := msvp_vote_proposal msvp in
  let sd := sr_safety_data s in
  let accepted :=
    sr_initialized s = true /\ vp_epoch vp = epoch sd /\ vp_qc_round vp < vp_round vp
    /\ last_voted_round sd < vp_round vp /\ preferred_round sd <= vp_qc_round vp in
  match construct_and_sign_vote s msvp with
  | (Ok v, s') =>
      accepted
      /\ v = mkVote (vp_epoch vp) (vp_round vp) (vp_block_id vp) (sr_author s)
               (sign s 1 (vp_epoch vp) (vp_round vp) (vp_block_id vp))
      /\ s' = with_safety_data s (mkSafetyData (epoch sd) (vp_round vp)
                                    (N.max (preferred_round sd) (vp_qc_round vp)) (Some v))
  | (Err e, s') =>
      ~ accepted /\ s' = s
      /\ (sr_initialized s = false -> e = NotInitialized)
      /\ (sr_initialized s = true -> vp_epoch vp <> epoch sd ->
          e = IncorrectEpoch (epoch sd) (vp_epoch vp))
      /\ (sr_initialized s = true -> vp_epoch vp = epoch sd ->
          vp_round vp <= vp_qc_round vp -> e = InvalidCertificate)
      /\ (sr_initialized s = true -> vp_epoch vp = epoch sd ->
          vp_qc_round vp < vp_round vp -> e = SafetyViolation)
  end.
Proof.
  cbv zeta. unfold construct_and_sign_vote, vote_with_lock; cbv zeta.
  case_guards; bool_facts; cbn;
    repeat split; try reflexivity; try lia; try congruence;
    intros; try tauto; try lia; try congruence;
    intuition (try lia; try congruence).
Qed.

(** C3: a step that keeps the epoch never lowers [last_voted_round]; a
    step lowers it only as a successful [initialize] that raises the epoch,
    which resets it to 0; and over any sequence of requests that ends in
    the epoch it started in, [last_voted_round] has not decreased. *)
Theorem last_voted_round_monotone :
  (forall s r,
     let '(o, s') := execute s r in
     (epoch (sr_safety_data s') = epoch (sr_safety_data s) ->
      last_voted_round (sr_safety_data s) <= last_voted_round (sr_safety_data s'))
     /\ (last_voted_round (sr_safety_data s') < last_voted_round (sr_safety_data s) ->
         exists p, r = Initialize p /\ o = OutUnit (Ok tt)
              /\ epoch (sr_safety_data s) < epoch (sr_safety_data s')
              /\ last_voted_round (sr_safety_data s') = 0))
  /\ (forall s reqs,
        epoch (sr_safety_data (snd (run s reqs))) = epoch (sr_safety_data s) ->
        last_voted_round (sr_safety_data s) <= last_voted_round (sr_safety_data (snd (run s reqs)))).
Proof.
  split.
  - intros s r. pose proof (execute_step s r) as H.
    destruct (execute s r) as [o s'] eqn:Ex.
    destruct H as (_ & Hl & Hd). split; [exact Hl|].
    intros Hlt. destruct (Hd Hlt) as (p & -> & Ho & He).
    exists p. repeat split; auto.
    cbn [execute map_fst] in Ex. unfold initialize in Ex.
    destruct (_ && _); inversion Ex; subst; cbn in *; [reflexivity | lia].
  - intros s reqs. apply (run_mono s reqs).
Qed.

(** C4: [initialize] with a proof whose epoch does not exceed the current
    epoch fails with [InvalidEpochChangeProof] and leaves the whole engine
    state, hence epoch, [last_voted_round] and [preferred_round], as it was. *)
Theorem initialize_rejects_stale_epoch (s : SafetyRules) (p : EpochChangeProof)
  (Hstale : ecp_epoch p <= epoch (sr_safety_data s)) :
  initialize s p = (Err InvalidEpochChangeProof, s).
Proof.
  unfold initialize.
  replace (epoch (sr_safety_data s) <? ecp_epoch p) with false
    by (symmetry; apply N.ltb_ge; exact Hstale).
  rewrite andb_false_r. reflexivity.
Qed.

Lemma initialize_rejects_stale_epoch_witness :
  ecp_epoch (proof_for 5) <= epoch (sr_safety_data state_5_10_8)
  /\ initialize state_5_10_8 (proof_for 5) = (Err InvalidEpochChangeProof, state_5_10_8).
Proof.
  split; [cbn; lia|].
  apply initialize_rejects_stale_epoch. cbn. lia.
Defined.

(** C5: with an engine whose state fits its [u64] fields, each of the
    eight [SerializerClient] methods over the in-process [LocalService]
    returns exactly what the engine method returns when called directly,
    and leaves the service around the same new engine state. *)
Theorem client_matches_engine (svc : SerializerService)
  (Hs : safety_rules_ok (internal svc) = true) :
  let s := internal svc in
  client_consensus_state svc = lift_service (consensus_state s)
  /\ (forall proof, epoch_change_proof_ok proof = true ->
        client_initialize svc proof = lift_service (initialize s proof))
  /\ (forall vp, maybe_signed_vote_proposal_ok vp = true ->
        client_construct_and_sign_vote svc vp = lift_service (construct_and_sign_vote s vp))
  /\ (forall bd, block_data_ok bd = true ->
        client_sign_proposal svc bd = lift_service (sign_proposal s bd))
  /\ (forall t, timeout_ok t = true ->
        client_sign_timeout svc t = lift_service (sign_timeout s t))
  /\ (forall t tc, two_chain_timeout_ok t = true -> option_ok tc_ok tc = true ->
        client_sign_timeout_with_qc svc t tc = lift_service (sign_timeout_with_qc s t tc))
  /\ (forall vp tc, maybe_signed_vote_proposal_ok vp = true -> option_ok tc_ok tc = true ->
        client_construct_and_sign_vote_two_chain svc vp tc
        = lift_service (construct_and_sign_vote_two_chain s vp tc))
  /\ (forall li nli, ledger_info_with_signatures_ok li = true -> ledger_info_ok nli = true ->
        client_sign_commit_vote svc li nli = lift_service (sign_commit_vote s li nli)).
Proof.
  cbv zeta.
  unfold client_consensus_state, client_initialize, client_construct_and_sign_vote,
    client_sign_proposal, client_sign_timeout, client_sign_timeout_with_qc,
    client_construct_and_sign_vote_two_chain, client_sign_commit_vote, lift_service.
  repeat split; intros;
  match goal with
  | |- client_call ?dec svc ?input = _ =>
      assert (Hi : input_ok input = true)
        by (cbn [input_ok];
            first [reflexivity | assumption | (apply andb_true_intro; split; assumption)]);
      pose proof (execute_out_ok (internal svc) input Hs Hi) as Ho;
      cbn [execute map_fst fst] in Ho;
      eapply client_call_spec;
      [ | rewrite (handle_message_enc_input svc input Hi); reflexivity | exact Ho ]
  end;
  eauto with bcs_rt.
Qed.

Lemma client_matches_engine_witness :
  safety_rules_ok (internal (mkSerializerService state_5_10_8)) = true
  /\ client_construct_and_sign_vote (mkSerializerService state_5_10_8) (proposal 5 11 9)
     = lift_service (construct_and_sign_vote state_5_10_8 (proposal 5 11 9)).
Proof.
  assert (Hs : safety_rules_ok (internal (mkSerializerService state_5_10_8)) = true)
    by reflexivity.
  split; [exact Hs|].
  destruct (client_matches_engine (mkSerializerService state_5_10_8) Hs)
    as (_ & _ & Hv & _).
  apply Hv. reflexivity.
Defined.

(** C6 (round trip): every well-formed request, and every result of each
    of the four result types (success value or error), encodes without
    failure and decodes back to itself. *)
Theorem wire_roundtrip :
  (forall i, input_ok i = true ->
     exists bs, to_bytes enc_input i = Ok bs /\ from_bytes dec_input bs = Ok i)
  /\ (forall r, result_ok consensus_state_ok r = true ->
        exists bs, to_bytes (enc_result enc_consensus_state) r = Ok bs
                   /\ from_bytes (dec_result dec_consensus_state) bs = Ok r)
  /\ (forall r, result_ok unit_ok r = true ->
        exists bs, to_bytes (enc_result enc_unit) r = Ok bs
                   /\ from_bytes (dec_result dec_unit) bs = Ok r)
  /\ (forall r, result_ok vote_ok r = true ->
        exists bs, to_bytes (enc_result enc_vote) r = Ok bs
                   /\ from_bytes (dec_result dec_vote) bs = Ok r)
  /\ (forall r, result_ok signature_ok r = true ->
        exists bs, to_bytes (enc_result enc_signature) r = Ok bs
                   /\ from_bytes (dec_result dec_signature) bs = Ok r).
Proof.
  repeat split; intros x Hx; eexists; split; try reflexivity;
    apply from_bytes_enc; intros rest.
  - apply dec_input_enc. exact Hx.
  - apply (dec_result_enc _ _ consensus_state_ok); eauto with bcs_rt.
  - apply (dec_result_enc _ _ unit_ok); eauto with bcs_rt.
  - apply (dec_result_enc _ _ vote_ok); eauto with bcs_rt.
  - apply (dec_result_enc _ _ signature_ok); eauto with bcs_rt.
Qed.

(** C7: when the request bytes decode, [handle_message] calls the engine
    method named by the variant with that variant's arguments (the optional
    timeout certificate passed on as it is) and returns the encoding of the
    method's typed result, keeping the engine's new state. *)
Theorem handle_message_dispatch (svc : SerializerService) (bytes : list byte)
  (input : SafetyRulesInput) (Hdec : from_bytes dec_input bytes = Ok input) :
  let s := internal svc in
  let returns {T} (enc : T -> list byte) (r : Result T Error * SafetyRules) :=
    handle_message svc bytes = (Ok (enc_result enc (fst r)), mkSerializerService (snd r)) in
  match input with
  | ConsensusState => returns enc_consensus_state (consensus_state s)
  | Initialize proof => returns enc_unit (initialize s proof)
  | ConstructAndSignVote vp => returns enc_vote (construct_and_sign_vote s vp)
  | SignProposal bd => returns enc_signature (sign_proposal s bd)
  | SignTimeout t => returns enc_signature (sign_timeout s t)
  | SignTimeoutWithQC t maybe_tc => returns enc_signature (sign_timeout_with_qc s t maybe_tc)
  | ConstructAndSignVoteTwoChain vp maybe_tc =>
      returns enc_vote (construct_and_sign_vote_two_chain s vp maybe_tc)
  | SignCommitVote li nli => returns enc_signature (sign_commit_vote s li nli)
  end.
Proof.
  cbv zeta. rewrite (handle_message_decoded svc bytes input Hdec).
  destruct input; reflexivity.
Qed.

Lemma handle_message_dispatch_witness :
  from_bytes dec_input (enc_input (ConstructAndSignVoteTwoChain (proposal 5 11 9)
                                     (Some (mkTwoChainTimeoutCertificate 5 10))))
    = Ok (ConstructAndSignVoteTwoChain (proposal 5 11 9) (Some (mkTwoChainTimeoutCertificate 5 10)))
  /\ handle_message (mkSerializerService state_5_10_8)
       (enc_input (ConstructAndSignVoteTwoChain (proposal 5 11 9)
                     (Some (mkTwoChainTimeoutCertificate 5 10))))
     = (Ok (enc_result enc_vote (fst (construct_and_sign_vote_two_chain state_5_10_8
              (proposal 5 11 9) (Some (mkTwoChainTimeoutCertificate 5 10))))),
        mkSerializerService (snd (construct_and_sign_vote_two_chain state_5_10_8
              (proposal 5 11 9) (Some (mkTwoChainTimeoutCertificate 5 10))))).
Proof.
  assert (H : from_bytes dec_input (enc_input (ConstructAndSignVoteTwoChain (proposal 5 11 9)
                (Some (mkTwoChainTimeoutCertificate 5 10))))
              = Ok (ConstructAndSignVoteTwoChain (proposal 5 11 9)
                      (Some (mkTwoChainTimeoutCertificate 5 10))))
    by reflexivity.
  split; [exact H|].
  exact (handle_message_dispatch (mkSerializerService state_5_10_8) _ _ H).
Defined.

(** C8: bytes that do not decode to a [SafetyRulesInput] make
    [handle_message] return [SerializationError] and leave the service,
    and so the engine state, unchanged. *)
Theorem handle_message_malformed (svc : SerializerService) (bytes : list byte) (e : BcsError)
  (Hdec : from_bytes dec_input bytes = Err e) :
  handle_message svc bytes = (Err SerializationError, svc).
Proof. exact (handle_message_undecoded svc bytes e Hdec). Qed.

Lemma handle_message_malformed_witness :
  from_bytes dec_input [Byte.x08] = Err Malformed
  /\ handle_message (mkSerializerService state_5_10_8) [Byte.x08]
     = (Err SerializationError, mkSerializerService state_5_10_8).
Proof.
  assert (H : from_bytes dec_input [Byte.x08] = Err Malformed) by reflexivity.
  split; [exact H|].
  exact (handle_message_malformed (mkSerializerService state_5_10_8) _ _ H).
Defined.

(** C10: [handle_message] returns an outer error exactly when the request
    bytes do not decode, and that error is [SerializationError]; when they
    decode, the engine's typed result, an engine error included, is
    returned encoded inside [Ok]. *)
Theorem handle_message_outer_error (svc : SerializerService) (bytes : list byte) :
  (forall e, fst (handle_message svc bytes) = Err e
             <-> (exists be, from_bytes dec_input bytes = Err be) /\ e = SerializationError)
  /\ (forall input, from_bytes dec_input bytes = Ok input ->
        fst (handle_message svc bytes) = Ok (encode_out (fst (execute (internal svc) input)))).
Proof.
  split.
  - intros e. destruct (from_bytes dec_input bytes) as [input|be] eqn:Hd.
    + rewrite (handle_message_decoded svc bytes input Hd). cbn.
      split; [discriminate|]. intros [[be Hbe] _]. discriminate.
    + rewrite (handle_message_undecoded svc bytes be Hd). cbn.
      split.
      * intros He. injection He as <-. split; [exists be; reflexivity | reflexivity].
      * intros [_ ->]. reflexivity.
  - intros input Hd. rewrite (handle_message_decoded svc bytes input Hd). reflexivity.
Qed.

Import Concurrent ConcurrentFacts.

(** C9: threads calling [LocalService::request] on one shared service are
    never interleaved against the engine.  Under any schedule of their
    steps: at most one thread is inside the write guard, and it is the
    guard's holder; while a thread holds the guard, no step of another
    thread changes the service or the guard; and the outcome is serial:
    the threads that have returned, in the order they held the guard, get
    the replies of running their requests one after the other, and, once
    the guard is free, the service is the one that serial run leaves. *)
Theorem local_service_serializes (svc0 : SerializerService)
  (inputs : nat -> SafetyRulesInput) (sched : list nat) :
  let c := exec (init svc0 inputs) sched in
  (forall t u, in_guard (th_pc (threads c t)) = true ->
               in_guard (th_pc (threads c u)) = true -> t = u)
  /\ (forall t, in_guard (th_pc (threads c t)) = true -> guard c = Some t)
  /\ (forall h t c', guard c = Some h -> t <> h -> step c t = Some c' ->
        shared c' = shared c /\ guard c' = guard c)
  /\ exists order,
       NoDup order
       /\ (forall t, In t order <-> exists r, th_pc (threads c t) = Done r)
       /\ (forall t r, th_pc (threads c t) = Done r -> In (t, r) (fst (serial svc0 inputs order)))
       /\ (guard c = None -> shared c = snd (serial svc0 inputs order)).
Proof.
  cbv zeta.
  destruct (guarded_inv_exec svc0 inputs sched (init svc0 inputs) []
              (guarded_inv_init svc0 inputs)) as [log Hinv].
  pose proof Hinv as (Hnd & _ & Hlog & Hrep & _ & Hg).
  unfold guard_inv in Hg.
  split; [|split; [|split]].
  - intros t u Ht Hu. destruct (guard _) as [h|].
    + destruct Hg as (Hh & _). rewrite (Hh t Ht), (Hh u Hu). reflexivity.
    + destruct Hg as (Hf & _). rewrite Hf in Ht. discriminate.
  - intros t Ht. destruct (guard _) as [h|].
    + destruct Hg as (Hh & _). rewrite (Hh t Ht). reflexivity.
    + destruct Hg as (Hf & _). rewrite Hf in Ht. discriminate.
  - intros h t c' Hh Hne Hs. exact (step_non_holder svc0 inputs _ log h t c' Hinv Hh Hne Hs).
  - exists log. split; [exact Hnd|]. split; [exact Hlog|]. split; [exact Hrep|].
    intros Hn. rewrite Hn in Hg. destruct Hg as (_ & Hs). exact Hs.
Qed.

End Claims.

(** ** Decoding accepts only canonical encodings *)

Module DecodeFacts.
Import Bcs BcsFacts Wire Serializer.

Lemma bind_inv {A B} (d : Dec A) (k : A -> Dec B) bs y r :
  bind d k bs = Some (y, r) -> exists x r1, d bs = Some (x, r1) /\ k x r1 = Some (y, r).
Proof.
  unfold bind. destruct (d bs) as [[x r1]|]; [|discriminate].
  intros H. exists x, r1. split; [reflexivity | exact H].
Qed.

Lemma byte_of_N_to_N b : byte_of_N (Byte.to_N b) = b.
Proof.
  unfold byte_of_N. pose proof (Byte.to_N_bounded b).
  rewrite N.mod_small by lia. rewrite Byte.of_to_N. reflexivity.
Qed.

Lemma dec_uint_sound k bs n r :
  dec_uint k bs = Some (n, r) -> bs = enc_uint k n ++ r /\ n < 256 ^ N.of_nat k.
Proof.
  revert bs n r. induction k as [|k IH]; intros bs n r H.
  - cbn in H. injection H as <- <-. split; [reflexivity | cbn; lia].
  - change (dec_uint (S k)) with
      (let* b := read_byte in let* hi := dec_uint k in ret (Byte.to_N b + 256 * hi)) in H.
    apply bind_inv in H as (b & bs1 & Hb & H).
    destruct bs as [|b0 bs]; cbn in Hb; [discriminate|]. injection Hb as -> ->.
    apply bind_inv in H as (hi & r1 & Hhi & H).
    unfold ret in H. injection H as Hn <-.
    destruct (IH _ _ _ Hhi) as [-> Hlt].
    pose proof (Byte.to_N_bounded b).
    assert (Hn' : n = Byte.to_N b + 256 * hi) by (rewrite <- Hn; reflexivity).
    clear Hn.
    assert (Hm : n mod 256 = Byte.to_N b).
    { symmetry. apply (N.mod_unique _ _ hi); lia. }
    assert (Hd : n / 256 = hi).
    { symmetry. apply (N.div_unique _ _ _ (Byte.to_N b)); lia. }
    split.
    + cbn [enc_uint app]. rewrite Hd. f_equal.
      unfold byte_of_N. rewrite Hm, Byte.of_to_N. reflexivity.
    + rewrite Nat2N.inj_succ, N.pow_succ_r'. lia.
Qed.

Lemma dec_u64_sound bs n r :
  dec_u64 bs = Some (n, r) -> bs = enc_u64 n ++ r /\ u64_ok n = true.
Proof.
  intros H. apply dec_uint_sound in H as [-> Hlt]. split; [reflexivity|].
  unfold u64_ok, u64_max. apply N.ltb_lt. exact Hlt.
Qed.

Lemma dec_bool_sound bs b r : dec_bool bs = Some (b, r) -> bs = enc_bool b ++ r.
Proof.
  unfold dec_bool, bind. destruct bs as [|x bs]; cbn; [discriminate|].
  destruct x; cbn; intros H; try discriminate H; injection H as <- <-; reflexivity.
Qed.

Lemma dec_option_sound {A} (enc : A -> list byte) (dec : Dec A) (ok : A -> bool) :
  (forall bs a r, dec bs = Some (a, r) -> bs = enc a ++ r /\ ok a = true) ->
  forall bs o r, dec_option dec bs = Some (o, r) ->
  bs = enc_option enc o ++ r /\ option_ok ok o = true.
Proof.
  intros Hs bs o r. unfold dec_option, bind.
  destruct bs as [|x bs]; cbn; [discriminate|].
  destruct x; cbn; intros H; try discriminate H.
  - injection H as <- <-. split; reflexivity.
  - destruct (dec bs) as [[a r1]|] eqn:Ha; [|discriminate].
    unfold ret in H. injection H as <- <-.
    destruct (Hs _ _ _ Ha) as [-> Hok]. split; [reflexivity | exact Hok].
Qed.

Lemma dec_tag_sound count bs i r :
  dec_tag count bs = Some (i, r) -> bs = enc_tag i ++ r /\ (i < count)%nat.
Proof.
  unfold dec_tag, bind. destruct bs as [|b bs]; cbn; [discriminate|].
  destruct (Byte.to_N b <? N.of_nat count) eqn:E; [|discriminate].
  unfold ret. intros H. injection H as <- <-. apply N.ltb_lt in E.
  split.
  - unfold enc_tag. rewrite N2Nat.id, byte_of_N_to_N. reflexivity.
  - lia.
Qed.

Ltac inv_dec :=
  repeat match goal with
         | H : bind _ _ _ = Some _ |- _ =>
             let x := fresh "x" in let r := fresh "r" in let H' := fresh "H" in
             apply bind_inv in H as (x & r & H' & H); cbv beta in H
         | H : dec_u64 _ = Some _ |- _ =>
             let Hok := fresh "Hok" in apply dec_u64_sound in H as [-> Hok]
         | H : dec_bool _ = Some _ |- _ => apply dec_bool_sound in H as ->
         | H : ret _ _ = Some _ |- _ =>
             unfold ret in H; injection H as <- <-
         | H : fail _ = Some _ |- _ => discriminate H
         end.

Ltac finish_sound enc ok :=
  split;
  [ unfold enc; rewrite <- ?app_assoc; reflexivity
  | unfold ok; repeat (first [ assumption | apply andb_true_intro; split ]) ].

Lemma dec_signature_sound bs x r :
  dec_signature bs = Some (x, r) -> bs = enc_signature x ++ r /\ signature_ok x = true.
Proof. unfold dec_signature. intros H. inv_dec. finish_sound enc_signature signature_ok. Qed.

Lemma dec_vote_sound bs x r :
  dec_vote bs = Some (x, r) -> bs = enc_vote x ++ r /\ vote_ok x = true.
Proof.
  unfold dec_vote. intros H. inv_dec.
  match goal with H : dec_signature _ = Some _ |- _ =>
    apply dec_signature_sound in H as [-> ?] end.
  inv_dec. finish_sound enc_vote vote_ok.
Qed.

Lemma dec_vote_proposal_sound bs x r :
  dec_vote_proposal bs = Some (x, r) -> bs = enc_vote_proposal x ++ r /\ vote_proposal_ok x = true.
Proof. unfold dec_vote_proposal. intros H. inv_dec. finish_sound enc_vote_proposal vote_proposal_ok. Qed.

Lemma dec_maybe_signed_vote_proposal_sound bs x r :
  dec_maybe_signed_vote_proposal bs = Some (x, r) ->
  bs = enc_maybe_signed_vote_proposal x ++ r /\ maybe_signed_vote_proposal_ok x = true.
Proof.
  unfold dec_maybe_signed_vote_proposal. intros H. inv_dec.
  match goal with H : dec_vote_proposal _ = Some _ |- _ =>
    apply dec_vote_proposal_sound in H as [-> ?] end.
  match goal with H : dec_option _ _ = Some _ |- _ =>
    apply (dec_option_sound enc_signature _ signature_ok dec_signature_sound) in H as [-> ?] end.
  inv_dec. finish_sound enc_maybe_signed_vote_proposal maybe_signed_vote_proposal_ok.
Qed.

Lemma dec_block_data_sound bs x r :
  dec_block_data bs = Some (x, r) -> bs = enc_block_data x ++ r /\ block_data_ok x = true.
Proof. unfold dec_block_data. intros H. inv_dec. finish_sound enc_block_data block_data_ok. Qed.

Lemma dec_timeout_sound bs x r :
  dec_timeout bs = Some (x, r) -> bs = enc_timeout x ++ r /\ timeout_ok x = true.
Proof. unfold dec_timeout. intros H. inv_dec. finish_sound enc_timeout timeout_ok. Qed.

Lemma dec_two_chain_timeout_sound bs x r :
  dec_two_chain_timeout bs = Some (x, r) ->
  bs = enc_two_chain_timeout x ++ r /\ two_chain_timeout_ok x = true.
Proof. unfold dec_two_chain_timeout. intros H. inv_dec. finish_sound enc_two_chain_timeout two_chain_timeout_ok. Qed.

Lemma dec_tc_sound bs x r : dec_tc bs = Some (x, r) -> bs = enc_tc x ++ r /\ tc_ok x = true.
Proof. unfold dec_tc. intros H. inv_dec. finish_sound enc_tc tc_ok. Qed.

Lemma dec_ledger_info_sound bs x r :
  dec_ledger_info bs = Some (x, r) -> bs = enc_ledger_info x ++ r /\ ledger_info_ok x = true.
Proof. unfold dec_ledger_info. intros H. inv_dec. finish_sound enc_ledger_info ledger_info_ok. Qed.

Lemma dec_ledger_info_with_signatures_sound bs x r :
  dec_ledger_info_with_signatures bs = Some (x, r) ->
  bs = enc_ledger_info_with_signatures x ++ r /\ ledger_info_with_signatures_ok x = true.
Proof.
  unfold dec_ledger_info_with_signatures. intros H. inv_dec.
  match goal with H : dec_ledger_info _ = Some _ |- _ =>
    apply dec_ledger_info_sound in H as [-> ?] end.
  inv_dec. finish_sound enc_ledger_info_with_signatures ledger_info_with_signatures_ok.
Qed.

Lemma dec_epoch_change_proof_sound bs x r :
  dec_epoch_change_proof bs = Some (x, r) ->
  bs = enc_epoch_change_proof x ++ r /\ epoch_change_proof_ok x = true.
Proof. unfold dec_epoch_change_proof. intros H. inv_dec. finish_sound enc_epoch_change_proof epoch_change_proof_ok. Qed.

Lemma dec_consensus_state_sound bs x r :
  dec_consensus_state bs = Some (x, r) ->
  bs = enc_consensus_state x ++ r /\ consensus_state_ok x = true.
Proof. unfold dec_consensus_state. intros H. inv_dec. finish_sound enc_consensus_state consensus_state_ok. Qed.

Lemma dec_unit_sound bs x r : dec_unit bs = Some (x, r) -> bs = enc_unit x ++ r /\ unit_ok x = true.
Proof. unfold dec_unit. intros H. inv_dec. split; reflexivity. Qed.

Lemma dec_error_sound bs e r :
  dec_error bs = Some (e, r) -> bs = enc_error e ++ r /\ error_ok e = true.
Proof.
  unfold dec_error. intros H. apply bind_inv in H as (i & r1 & Hi & H).
  apply dec_tag_sound in Hi as [-> Hlt].
  do 8 (destruct i as [|i];
        [ cbv beta iota in H; inv_dec; split;
          [ unfold enc_error; rewrite <- ?app_assoc; reflexivity
          | unfold error_ok; repeat (first [ assumption | reflexivity
                                           | apply andb_true_intro; split ]) ]
        | ]).
  lia.
Qed.

Lemma dec_result_sound {T} (enc : T -> list byte) (dec : Dec T) (ok : T -> bool) :
  (forall bs a r, dec bs = Some (a, r) -> bs = enc a ++ r /\ ok a = true) ->
  forall bs x r, dec_result dec bs = Some (x, r) ->
  bs = enc_result enc x ++ r /\ result_ok ok x = true.
Proof.
  intros Hs bs x r H. unfold dec_result in H. apply bind_inv in H as (i & r1 & Hi & H).
  apply dec_tag_sound in Hi as [-> Hlt].
  destruct i as [|i]; cbv beta iota in H; apply bind_inv in H as (y & r2 & Hy & H);
    unfold ret in H; injection H as <- <-.
  - apply Hs in Hy as [-> Hok]. split; [reflexivity | exact Hok].
  - apply dec_error_sound in Hy as [-> Hok]. split; [| exact Hok].
    destruct i; [reflexivity | lia].
Qed.

Ltac inv_fields :=
  repeat match goal with
         | H : bind _ _ _ = Some _ |- _ =>
             let x := fresh "x" in let r := fresh "r" in let H' := fresh "H" in
             apply bind_inv in H as (x & r & H' & H); cbv beta in H
         | H : dec_epoch_change_proof _ = Some _ |- _ =>
             apply dec_epoch_change_proof_sound in H as [-> ?]
         | H : dec_maybe_signed_vote_proposal _ = Some _ |- _ =>
             apply dec_maybe_signed_vote_proposal_sound in H as [-> ?]
         | H : dec_block_data _ = Some _ |- _ => apply dec_block_data_sound in H as [-> ?]
         | H : dec_timeout _ = Some _ |- _ => apply dec_timeout_sound in H as [-> ?]
         | H : dec_two_chain_timeout _ = Some _ |- _ =>
             apply dec_two_chain_timeout_sound in H as [-> ?]
         | H : dec_option dec_tc _ = Some _ |- _ =>
             apply (dec_option_sound enc_tc _ tc_ok dec_tc_sound) in H as [-> ?]
         | H : dec_ledger_info_with_signatures _ = Some _ |- _ =>
             apply dec_ledger_info_with_signatures_sound in H as [-> ?]
         | H : dec_ledger_info _ = Some _ |- _ => apply dec_ledger_info_sound in H as [-> ?]
         | H : ret _ _ = Some _ |- _ => unfold ret in H; injection H as <- <-
         end.

Lemma dec_input_sound bs i r :
  dec_input bs = Some (i, r) -> bs = enc_input i ++ r /\ input_ok i = true.
Proof.
  unfold dec_input. intros H. apply bind_inv in H as (t & r1 & Ht & H).
  apply dec_tag_sound in Ht as [-> Hlt].
  do 8 (destruct t as [|t];
        [ cbv beta iota in H; inv_fields; split;
          [ unfold enc_input; rewrite <- ?app_assoc; reflexivity
          | cbn [input_ok]; repeat (first [ assumption | reflexivity
                                          | apply andb_true_intro; split ]) ]
        | ]).
  lia.
Qed.

(** [bcs::from_bytes] accepts exactly the encodings of well-formed values. *)
Lemma from_bytes_sound {A} (enc : A -> list byte) (dec : Dec A) (ok : A -> bool) :
  (forall bs a r, dec bs = Some (a, r) -> bs = enc a ++ r /\ ok a = true) ->
  forall bs a, from_bytes dec bs = Ok a -> bs = enc a /\ ok a = true.
Proof.
  intros Hs bs a H. unfold from_bytes in H.
  destruct (dec bs) as [[x [|b r]]|] eqn:E; try discriminate H.
  injection H as <-. apply Hs in E as [-> Hok]. rewrite app_nil_r. split; [reflexivity | exact Hok].
Qed.

End DecodeFacts.

(** ** The client over the in-process service *)

Module ClientFacts.
Import Bcs BcsFacts Wire WireFacts Serializer SerializerFacts Engine EngineFacts
  ServiceFacts Client.

Lemma serializer_client_call_local {T} (dec : Dec T) svc input :
  serializer_client_call dec svc input = client_call dec svc input.
Proof. reflexivity. Qed.

(** Every step keeps the [u64] fields of the engine state below [2^64]
    when the request has its own below [2^64]. *)
Lemma execute_ok_preserved s input :
  safety_rules_ok s = true -> input_ok input = true ->
  safety_rules_ok (snd (execute s input)) = true.
Proof.
  intros Hs Hi.
  destruct s as [init author member [ep lvr pref lv]].
  destruct input; unfold input_ok in Hi; cbn [execute map_fst snd];
  unfold consensus_state, initialize, construct_and_sign_vote, sign_proposal, sign_timeout,
    sign_timeout_with_qc, construct_and_sign_vote_two_chain, sign_commit_vote, vote_with_lock,
    timeout_update, with_safety_data, tc_round_or_zero;
  cbn zeta; case_guards; cbn [snd];
  repeat match goal with o : option TwoChainTimeoutCertificate |- _ => destruct o end;
  repeat (first
    [ progress unfold sign, safety_rules_ok, signature_ok, vote_ok, vote_proposal_ok,
        option_ok, maybe_signed_vote_proposal_ok, block_data_ok, timeout_ok,
        two_chain_timeout_ok, tc_ok, ledger_info_ok, ledger_info_with_signatures_ok,
        epoch_change_proof_ok in *
    | progress cbn -[u64_ok] in * ]);
  repeat match goal with
         | H : (_ && _) = true |- _ => apply andb_prop in H; destruct H
         end;
  repeat (first [ assumption | reflexivity | apply andb_true_intro; split
                | apply u64_ok_max ]).
Qed.

(** Over [LocalService], each [SerializerClient] method returns the
    engine's typed result and leaves the service around its new state. *)
Lemma client_execute_local svc input :
  safety_rules_ok (internal svc) = true -> input_ok input = true ->
  client_execute svc input
  = (fst (execute (internal svc) input), mkSerializerService (snd (execute (internal svc) input))).
Proof.
  intros Hs Hi.
  pose proof (execute_out_ok (internal svc) input Hs Hi) as Ho.
  pose proof (handle_message_enc_input svc input Hi) as Hh.
  destruct input; cbn [client_execute execute map_fst fst snd encode_out] in Ho, Hh |- *;
    rewrite serializer_client_call_local;
    unshelve erewrite (client_call_spec _ _ _ _ _ _ _ _ Hh Ho);
    first [ reflexivity | eauto with bcs_rt ].
Qed.

Lemma client_run_local_eq svc reqs :
  safety_rules_ok (internal svc) = true -> Forall (fun i => input_ok i = true) reqs ->
  client_run svc reqs
  = (fst (run (internal svc) reqs), mkSerializerService (snd (run (internal svc) reqs))).
Proof.
  intros Hs Hreqs. revert svc Hs.
  induction Hreqs as [|i rest Hi Hrest IH]; intros svc Hs; [destruct svc; reflexivity|].
  cbn [client_run run].
  rewrite (client_execute_local svc i Hs Hi).
  pose proof (execute_ok_preserved _ _ Hs Hi) as Hs1.
  destruct (execute (internal svc) i) as [o s1]. cbn [fst snd] in *.
  rewrite (IH (mkSerializerService s1) Hs1). cbn [internal].
  destruct (run s1 rest) as [os s2]. reflexivity.
Qed.

End ClientFacts.

(** ** Further properties of serializer.rs *)

Module Extras.
Import Bcs BcsFacts Wire WireFacts Serializer SerializerFacts Engine EngineFacts
  ServiceFacts RunFacts Examples DecodeFacts Client ClientFacts.

(** X1: the request bytes [handle_message] accepts are canonical: bytes that
    decode to a [SafetyRulesInput] are exactly that request's encoding, and
    every [u64] in the request fits 64 bits. *)
Theorem request_decoding_canonical (bytes : list byte) (input : SafetyRulesInput)
  (Hdec : from_bytes dec_input bytes = Ok input) :
  bytes = enc_input input /\ input_ok input = true.
Proof. exact (from_bytes_sound enc_input dec_input input_ok dec_input_sound bytes input Hdec). Qed.

Lemma request_decoding_canonical_witness :
  from_bytes dec_input (enc_input (SignTimeout (mkTimeout 5 11))) = Ok (SignTimeout (mkTimeout 5 11))
  /\ enc_input (SignTimeout (mkTimeout 5 11)) = enc_input (SignTimeout (mkTimeout 5 11))
  /\ input_ok (SignTimeout (mkTimeout 5 11)) = true.
Proof.
  assert (H : from_bytes dec_input (enc_input (SignTimeout (mkTimeout 5 11)))
              = Ok (SignTimeout (mkTimeout 5 11))) by reflexivity.
  split; [exact H|].
  exact (request_decoding_canonical _ _ H).
Defined.

(** X2: the response bytes each [SerializerClient] method accepts are
    canonical: bytes that decode to a result of its result type
    ([ConsensusState], [()], [Vote] or [Ed25519Signature]) are exactly the
    encoding of that result, success value or error. *)
Theorem response_decoding_canonical :
  (forall bytes r, from_bytes (dec_result dec_consensus_state) bytes = Ok r ->
     bytes = enc_result enc_consensus_state r /\ result_ok consensus_state_ok r = true)
  /\ (forall bytes r, from_bytes (dec_result dec_unit) bytes = Ok r ->
        bytes = enc_result enc_unit r /\ result_ok unit_ok r = true)
  /\ (forall bytes r, from_bytes (dec_result dec_vote) bytes = Ok r ->
        bytes = enc_result enc_vote r /\ result_ok vote_ok r = true)
  /\ (forall bytes r, from_bytes (dec_result dec_signature) bytes = Ok r ->
        bytes = enc_result enc_signature r /\ result_ok signature_ok r = true).
Proof.
  refine (conj _ (conj _ (conj _ _))).
  - exact (from_bytes_sound _ _ _ (dec_result_sound _ _ _ dec_consensus_state_sound)).
  - exact (from_bytes_sound _ _ _ (dec_result_sound _ _ _ dec_unit_sound)).
  - exact (from_bytes_sound _ _ _ (dec_result_sound _ _ _ dec_vote_sound)).
  - exact (from_bytes_sound _ _ _ (dec_result_sound _ _ _ dec_signature_sound)).
Qed.

(** X3: a well-formed request followed by any further bytes is refused by
    [handle_message] with [SerializationError], and the service is left
    as it was: the request is not run. *)
Theorem handle_message_trailing_bytes (svc : SerializerService) (input : SafetyRulesInput)
  (b : byte) (rest : list byte) (Hok : input_ok input = true) :
  handle_message svc (enc_input input ++ b :: rest) = (Err SerializationError, svc).
Proof.
  apply (handle_message_undecoded _ _ RemainingInput).
  unfold from_bytes. rewrite (dec_input_enc input (b :: rest) Hok). reflexivity.
Qed.

Lemma handle_message_trailing_bytes_witness :
  input_ok (SignTimeout (mkTimeout 5 11)) = true
  /\ handle_message (mkSerializerService state_5_10_8)
       (enc_input (SignTimeout (mkTimeout 5 11)) ++ [Byte.x00])
     = (Err SerializationError, mkSerializerService state_5_10_8).
Proof.
  assert (H : input_ok (SignTimeout (mkTimeout 5 11)) = true) by reflexivity.
  split; [exact H|].
  exact (handle_message_trailing_bytes _ _ Byte.x00 [] H).
Defined.

(** X4: a strict prefix of a well-formed request is refused by
    [handle_message] with [SerializationError], and the service is left
    as it was. *)
Theorem handle_message_truncated (svc : SerializerService) (input : SafetyRulesInput)
  (prefix suffix : list byte) (Hok : input_ok input = true)
  (Hsplit : enc_input input = prefix ++ suffix) (Hne : suffix <> []) :
  handle_message svc prefix = (Err SerializationError, svc).
Proof.
  destruct (from_bytes dec_input prefix) as [j|e] eqn:Hd.
  - exfalso.
    apply (from_bytes_sound enc_input dec_input input_ok dec_input_sound) in Hd as [-> Hj].
    pose proof (dec_input_enc input [] Hok) as H1.
    rewrite app_nil_r, Hsplit, (dec_input_enc j suffix Hj) in H1.
    injection H1 as _ Hs. exact (Hne Hs).
  - exact (handle_message_undecoded _ _ e Hd).
Qed.

Lemma handle_message_truncated_witness :
  input_ok (SignTimeout (mkTimeout 5 11)) = true
  /\ enc_input (SignTimeout (mkTimeout 5 11))
     = firstn 9 (enc_input (SignTimeout (mkTimeout 5 11)))
       ++ skipn 9 (enc_input (SignTimeout (mkTimeout 5 11)))
  /\ skipn 9 (enc_input (SignTimeout (mkTimeout 5 11))) <> []
  /\ handle_message (mkSerializerService state_5_10_8)
       (firstn 9 (enc_input (SignTimeout (mkTimeout 5 11))))
     = (Err SerializationError, mkSerializerService state_5_10_8).
Proof.
  assert (Hok : input_ok (SignTimeout (mkTimeout 5 11)) = true) by reflexivity.
  assert (Hsplit : enc_input (SignTimeout (mkTimeout 5 11))
                   = firstn 9 (enc_input (SignTimeout (mkTimeout 5 11)))
                     ++ skipn 9 (enc_input (SignTimeout (mkTimeout 5 11)))) by reflexivity.
  assert (Hne : skipn 9 (enc_input (SignTimeout (mkTimeout 5 11))) <> [])
    by (vm_compute; discriminate).
  split; [exact Hok|]. split; [exact Hsplit|]. split; [exact Hne|].
  exact (handle_message_truncated _ _ _ _ Hok Hsplit Hne).
Defined.

(** X5: a request whose first byte is not one of the eight variant
    indices of [SafetyRulesInput] is refused by [handle_message] with
    [SerializationError], and the service is left as it was. *)
Theorem handle_message_unknown_variant (svc : SerializerService) (b : byte) (rest : list byte)
  (Htag : 8 <= Byte.to_N b) :
  handle_message svc (b :: rest) = (Err SerializationError, svc).
Proof.
  apply (handle_message_undecoded _ _ Malformed).
  unfold from_bytes, dec_input, dec_tag, bind, read_byte.
  replace (Byte.to_N b <? N.of_nat 8) with false by (symmetry; apply N.ltb_ge; exact Htag).
  reflexivity.
Qed.

Lemma handle_message_unknown_variant_witness :
  8 <= Byte.to_N Byte.x08
  /\ handle_message (mkSerializerService state_5_10_8) [Byte.x08; Byte.x00]
     = (Err SerializationError, mkSerializerService state_5_10_8).
Proof.
  assert (H : 8 <= Byte.to_N Byte.x08) by (vm_compute; discriminate).
  split; [exact H|].
  exact (handle_message_unknown_variant _ Byte.x08 [Byte.x00] H).
Defined.

(** X6: the request encoding is prefix-free and injective: when the bytes
    of two well-formed requests, each followed by some further bytes, are
    equal, the requests are equal and so are the further bytes. *)
Theorem enc_input_prefix_free (i j : SafetyRulesInput) (rest rest' : list byte)
  (Hi : input_ok i = true) (Hj : input_ok j = true)
  (Heq : enc_input i ++ rest = enc_input j ++ rest') :
  i = j /\ rest = rest'.
Proof.
  pose proof (dec_input_enc i rest Hi) as H.
  rewrite Heq, (dec_input_enc j rest' Hj) in H.
  injection H as -> ->. split; reflexivity.
Qed.

Lemma enc_input_prefix_free_witness :
  input_ok (SignTimeout (mkTimeout 5 11)) = true
  /\ input_ok ConsensusState = true
  /\ enc_input (SignTimeout (mkTimeout 5 11)) ++ []
     = enc_input (SignTimeout (mkTimeout 5 11)) ++ []
  /\ SignTimeout (mkTimeout 5 11) = SignTimeout (mkTimeout 5 11) /\ @nil byte = [].
Proof.
  assert (Hi : input_ok (SignTimeout (mkTimeout 5 11)) = true) by reflexivity.
  assert (Hc : input_ok ConsensusState = true) by reflexivity.
  assert (Heq : enc_input (SignTimeout (mkTimeout 5 11)) ++ []
                = enc_input (SignTimeout (mkTimeout 5 11)) ++ []) by reflexivity.
  split; [exact Hi|]. split; [exact Hc|]. split; [exact Heq|].
  exact (enc_input_prefix_free _ _ _ _ Hi Hi Heq).
Defined.

(** X7: over any transport, a [SerializerClient] method whose transport
    answers with the encoding of a well-formed result returns that result,
    an engine error included, with the transport's new state. *)
Theorem client_decodes_response {St} `{TSerializerClient St} {T}
  (enc : T -> list byte) (dec : Dec T) (ok : T -> bool)
  (Hrt : forall a rest, ok a = true -> dec (enc a ++ rest) = Some (a, rest))
  (st st' : St) (input : SafetyRulesInput) (r : Result T Error)
  (Hreq : request st input = (Ok (enc_result enc r), st'))
  (Hok : result_ok ok r = true) :
  serializer_client_call dec st input = (r, st').
Proof.
  unfold serializer_client_call. rewrite Hreq.
  rewrite (from_bytes_enc (enc_result enc) (dec_result dec) r).
  - reflexivity.
  - intros rest. exact (dec_result_enc enc dec ok Hrt r rest Hok).
Qed.

Lemma client_decodes_response_witness :
  request (mkSerializerService uninitialized_5_10_8) (SignTimeout (mkTimeout 5 11))
    = (Ok (enc_result enc_signature (Err NotInitialized)), mkSerializerService uninitialized_5_10_8)
  /\ result_ok signature_ok (Err NotInitialized) = true
  /\ serializer_client_call dec_signature (mkSerializerService uninitialized_5_10_8)
       (SignTimeout (mkTimeout 5 11))
     = (Err NotInitialized, mkSerializerService uninitialized_5_10_8).
Proof.
  assert (Hreq : request (mkSerializerService uninitialized_5_10_8) (SignTimeout (mkTimeout 5 11))
                 = (Ok (enc_result enc_signature (Err NotInitialized)),
                    mkSerializerService uninitialized_5_10_8)) by (vm_compute; reflexivity).
  assert (Hok : result_ok signature_ok (Err NotInitialized) = true) by reflexivity.
  split; [exact Hreq|]. split; [exact Hok|].
  exact (client_decodes_response enc_signature dec_signature signature_ok
           (fun a rest Ha => dec_signature_enc a rest Ha) _ _ _ _ Hreq Hok).
Defined.

(** X8: over any transport, a [SerializerClient] method returns a value
    [Ok v] only when the transport answered with exactly the encoding of
    [Ok v], and [v] is well formed. *)
Theorem client_ok_response {St} `{TSerializerClient St} {T}
  (enc : T -> list byte) (dec : Dec T) (ok : T -> bool)
  (Hsound : forall bs a r, dec bs = Some (a, r) -> bs = enc a ++ r /\ ok a = true)
  (st st' : St) (input : SafetyRulesInput) (v : T)
  (Hcall : serializer_client_call dec st input = (Ok v, st')) :
  request st input = (Ok (enc_result enc (Ok v)), st') /\ ok v = true.
Proof.
  unfold serializer_client_call in Hcall.
  destruct (request st input) as [[response|e] st1]; [|discriminate Hcall].
  destruct (from_bytes (dec_result dec) response) as [r|e] eqn:Hd; [|discriminate Hcall].
  injection Hcall as -> ->.
  apply (from_bytes_sound _ _ _ (dec_result_sound enc dec ok Hsound)) in Hd as [-> Hok].
  split; [reflexivity | exact Hok].
Qed.

Lemma client_ok_response_witness :
  serializer_client_call dec_vote (mkSerializerService state_5_10_8)
    (ConstructAndSignVote (proposal 5 11 9))
  = (Ok (mkVote 5 11 77 42 (mkSignature 42 1 5 11 77)),
     mkSerializerService (snd (construct_and_sign_vote state_5_10_8 (proposal 5 11 9))))
  /\ request (mkSerializerService state_5_10_8) (ConstructAndSignVote (proposal 5 11 9))
     = (Ok (enc_result enc_vote (Ok (mkVote 5 11 77 42 (mkSignature 42 1 5 11 77)))),
        mkSerializerService (snd (construct_and_sign_vote state_5_10_8 (proposal 5 11 9))))
  /\ vote_ok (mkVote 5 11 77 42 (mkSignature 42 1 5 11 77)) = true.
Proof.
  assert (Hcall : serializer_client_call dec_vote (mkSerializerService state_5_10_8)
                    (ConstructAndSignVote (proposal 5 11 9))
                  = (Ok (mkVote 5 11 77 42 (mkSignature 42 1 5 11 77)),
                     mkSerializerService (snd (construct_and_sign_vote state_5_10_8
                                                 (proposal 5 11 9)))))
    by (vm_compute; reflexivity).
  split; [exact Hcall|].
  exact (client_ok_response enc_vote dec_vote vote_ok dec_vote_sound _ _ _ _ Hcall).
Defined.

(** X9: over any transport, a [SerializerClient] method returns an error
    [e] only when the transport itself failed with [e], or answered with
    exactly the encoding of the engine error [e], or answered with bytes
    that do not decode to a result, in which case [e] is
    [SerializationError]. *)
Theorem client_error_origin {St} `{TSerializerClient St} {T}
  (enc : T -> list byte) (dec : Dec T) (ok : T -> bool)
  (Hsound : forall bs a r, dec bs = Some (a, r) -> bs = enc a ++ r /\ ok a = true)
  (st st' : St) (input : SafetyRulesInput) (e : Error)
  (Hcall : serializer_client_call dec st input = (Err e, st')) :
  request st input = (Err e, st')
  \/ (request st input = (Ok (enc_result enc (Err e)), st') /\ error_ok e = true)
  \/ (exists response be, request st input = (Ok response, st')
        /\ from_bytes (dec_result dec) response = Err be /\ e = SerializationError).
Proof.
  unfold serializer_client_call in Hcall.
  destruct (request st input) as [[response|e0] st1].
  - destruct (from_bytes (dec_result dec) response) as [r|be] eqn:Hd.
    + injection Hcall as -> ->. right; left.
      apply (from_bytes_sound _ _ _ (dec_result_sound enc dec ok Hsound)) in Hd as [-> Hok].
      split; [reflexivity | exact Hok].
    + injection Hcall as <- ->. right; right. exists response, be. split; [reflexivity|]. split; [exact Hd | reflexivity].
  - left. injection Hcall as -> ->. reflexivity.
Qed.

Lemma client_error_origin_witness :
  serializer_client_call dec_vote (mkSerializerService uninitialized_5_10_8)
    (ConstructAndSignVote (proposal 5 11 9))
  = (Err NotInitialized, mkSerializerService uninitialized_5_10_8)
  /\ (request (mkSerializerService uninitialized_5_10_8) (ConstructAndSignVote (proposal 5 11 9))
      = (Err NotInitialized, mkSerializerService uninitialized_5_10_8)
      \/ (request (mkSerializerService uninitialized_5_10_8) (ConstructAndSignVote (proposal 5 11 9))
          = (Ok (enc_result enc_vote (Err NotInitialized)), mkSerializerService uninitialized_5_10_8)
          /\ error_ok NotInitialized = true)
      \/ (exists response be,
            request (mkSerializerService uninitialized_5_10_8) (ConstructAndSignVote (proposal 5 11 9))
            = (Ok response, mkSerializerService uninitialized_5_10_8)
            /\ from_bytes (dec_result dec_vote) response = Err be
            /\ NotInitialized = SerializationError)).
Proof.
  assert (Hcall : serializer_client_call dec_vote (mkSerializerService uninitialized_5_10_8)
                    (ConstructAndSignVote (proposal 5 11 9))
                  = (Err NotInitialized, mkSerializerService uninitialized_5_10_8))
    by (vm_compute; reflexivity).
  split; [exact Hcall|].
  exact (client_error_origin enc_vote dec_vote vote_ok dec_vote_sound _ _ _ _ Hcall).
Defined.

(** X10: a [SerializerClient] over the in-process [LocalService], called
    once per request of any sequence of well-formed requests, returns the
    results that running the engine directly on the same sequence returns,
    and leaves the service around the same final engine state. *)
Theorem client_run_local (svc : SerializerService) (reqs : list SafetyRulesInput)
  (Hs : safety_rules_ok (internal svc) = true)
  (Hreqs : Forall (fun i => input_ok i = true) reqs) :
  client_run svc reqs
  = (fst (run (internal svc) reqs), mkSerializerService (snd (run (internal svc) reqs))).
Proof. exact (client_run_local_eq svc reqs Hs Hreqs). Qed.

Lemma client_run_local_witness :
  safety_rules_ok (internal (mkSerializerService state_5_10_8)) = true
  /\ Forall (fun i => input_ok i = true)
       [ConstructAndSignVote (proposal 5 11 9); SignTimeout (mkTimeout 5 12); ConsensusState]
  /\ client_run (mkSerializerService state_5_10_8)
       [ConstructAndSignVote (proposal 5 11 9); SignTimeout (mkTimeout 5 12); ConsensusState]
     = (fst (run state_5_10_8
               [ConstructAndSignVote (proposal 5 11 9); SignTimeout (mkTimeout 5 12); ConsensusState]),
        mkSerializerService (snd (run state_5_10_8
               [ConstructAndSignVote (proposal 5 11 9); SignTimeout (mkTimeout 5 12); ConsensusState]))).
Proof.
  assert (Hs : safety_rules_ok (internal (mkSerializerService state_5_10_8)) = true) by reflexivity.
  assert (Hr : Forall (fun i => input_ok i = true)
                 [ConstructAndSignVote (proposal 5 11 9); SignTimeout (mkTimeout 5 12); ConsensusState])
    by (repeat constructor).
  split; [exact Hs|]. split; [exact Hr|].
  exact (client_run_local _ _ Hs Hr).
Defined.

(** X11: no equivocation through the client: over [LocalService], the
    votes a [SerializerClient] returns for any sequence of well-formed
    requests all lie beyond the engine's voting history, and any two of
    the same epoch have strictly increasing rounds. *)
Theorem client_local_no_equivocation (svc : SerializerService) (reqs : list SafetyRulesInput)
  (Hs : safety_rules_ok (internal svc) = true)
  (Hreqs : Forall (fun i => input_ok i = true) reqs) :
  let votes := signed_votes (fst (client_run svc reqs)) in
  Forall (beyond (internal svc)) votes
  /\ ForallOrdPairs (fun v1 v2 => vote_epoch v1 = vote_epoch v2 -> vote_round v1 < vote_round v2)
       votes.
Proof.
  cbv zeta. rewrite (client_run_local_eq svc reqs Hs Hreqs). cbn [fst].
  exact (run_votes (internal svc) reqs).
Qed.

Lemma client_local_no_equivocation_witness :
  safety_rules_ok (internal (mkSerializerService state_5_10_8)) = true
  /\ Forall (fun i => input_ok i = true)
       [ConstructAndSignVote (proposal 5 11 9); ConstructAndSignVote (proposal 5 12 11)]
  /\ ForallOrdPairs (fun v1 v2 => vote_epoch v1 = vote_epoch v2 -> vote_round v1 < vote_round v2)
       (signed_votes (fst (client_run (mkSerializerService state_5_10_8)
          [ConstructAndSignVote (proposal 5 11 9); ConstructAndSignVote (proposal 5 12 11)]))).
Proof.
  assert (Hs : safety_rules_ok (internal (mkSerializerService state_5_10_8)) = true) by reflexivity.
  assert (Hr : Forall (fun i => input_ok i = true)
                 [ConstructAndSignVote (proposal 5 11 9); ConstructAndSignVote (proposal 5 12 11)])
    by (repeat constructor).
  split; [exact Hs|]. split; [exact Hr|].
  exact (proj2 (client_local_no_equivocation _ _ Hs Hr)).
Defined.

(** X12: the in-process transport never fails on a well-formed request:
    [LocalService::request] encodes the request, and the service decodes
    it, runs the engine method it names and answers with the encoding of
    the engine's typed result, keeping the engine's new state. *)
Theorem local_request_runs_engine (svc : SerializerService) (input : SafetyRulesInput)
  (Hok : input_ok input = true) :
  request svc input
  = (Ok (encode_out (fst (execute (internal svc) input))),
     mkSerializerService (snd (execute (internal svc) input))).
Proof.
  change (request svc input) with (local_request svc input).
  unfold local_request, to_bytes. exact (handle_message_enc_input svc input Hok).
Qed.

Lemma local_request_runs_engine_witness :
  input_ok (SignTimeout (mkTimeout 5 12)) = true
  /\ request (mkSerializerService state_5_10_8) (SignTimeout (mkTimeout 5 12))
     = (Ok (encode_out (fst (execute state_5_10_8 (SignTimeout (mkTimeout 5 12))))),
        mkSerializerService (snd (execute state_5_10_8 (SignTimeout (mkTimeout 5 12))))).
Proof.
  assert (H : input_ok (SignTimeout (mkTimeout 5 12)) = true) by reflexivity.
  split; [exact H|].
  exact (local_request_runs_engine (mkSerializerService state_5_10_8) _ H).
Defined.

End Extras.
